(** * A shallow embedding of the KANN network engine (kann.h, r368)

    Only the public header [kann.h] of the library is available; the
    implementation of the graph builder, evaluator, unroller, feed binder,
    optimizer and model I/O is modelled from the design document of the
    repository.  Float arrays passed by pointer are modelled as functions
    [nat -> R] (for the optimizer entry points) or as lists of reals (for the
    collated stores of a network); arithmetic is exact real arithmetic. *)

From Stdlib Require Import String List Bool Arith Lia ZArith NArith Sorting.Sorted.
From Stdlib Require Import Reals Lra.
Import ListNotations.
Open Scope nat_scope.
Open Scope bool_scope.

(** ** Optimizer: [kann_RMSprop] and [kann_grad_clip] *)

Module Optimizer.
Local Open Scope R_scope.

(** A C array [float *a] updated at one index. *)
Definition upd (a : nat -> R) (i : nat) (v : R) : nat -> R :=
  fun j => if Nat.eqb j i then v else a j.

(** Modelled from the spec: the constant ε of [kann_RMSprop].  The design
    only says that ε is a small constant guarding against division by zero;
    the value 1e-6 is used here. *)
Definition RMS_EPS : R := / 1000000.

(** Modelled from the spec (body of [kann_RMSprop], missing from the
    sources): one iteration [i] of the loop.  The accumulator is updated
    first and the parameter update reads the new accumulator. *)
Definition rms_step (h0 : R) (h : option (nat -> R)) (decay : R)
    (g : nat -> R) (i : nat) (tr : (nat -> R) * (nat -> R))
    : (nat -> R) * (nat -> R) :=
  let '(t, r) := tr in
  let lr := match h with Some hh => hh i | None => h0 end in
  let r' := upd r i (decay * r i + (1 - decay) * g i * g i) in
  let t' := upd t i (t i - lr * g i / sqrt (r' i + RMS_EPS)) in
  (t', r').

(** [for (i = 0; i < n; ++i) ...]: indices [0 .. n-1] in increasing order. *)
Fixpoint rms_loop (n : nat) (h0 : R) (h : option (nat -> R)) (decay : R)
    (g : nat -> R) (tr : (nat -> R) * (nat -> R)) : (nat -> R) * (nat -> R) :=
  match n with
  | O => tr
  | S n' => rms_step h0 h decay g n' (rms_loop n' h0 h decay g tr)
  end.

(** [void kann_RMSprop(int n, float h0, const float *h, float decay,
    const float *g, float *t, float *r)]; returns the new [t] and [r]. *)
Definition kann_RMSprop (n : nat) (h0 : R) (h : option (nat -> R)) (decay : R)
    (g t r : nat -> R) : (nat -> R) * (nat -> R) :=
  rms_loop n h0 h decay g (t, r).

(** Sum of squares of [g[0..n-1]]. *)
Fixpoint sum_sq (n : nat) (g : nat -> R) : R :=
  match n with
  | O => 0
  | S n' => sum_sq n' g + g n' * g n'
  end.

(** The L2 norm of [g[0..n-1]]. *)
Definition l2norm (n : nat) (g : nat -> R) : R := sqrt (sum_sq n g).

(** [for (i = 0; i < n; ++i) g[i] *= s;] *)
Fixpoint scale_loop (n : nat) (s : R) (g : nat -> R) : nat -> R :=
  match n with
  | O => g
  | S n' => let g' := scale_loop n' s g in upd g' n' (g' n' * s)
  end.

(** Modelled from the spec (body of [kann_grad_clip], missing from the
    sources): computes the L2 norm; if it exceeds [thres], rescales every
    component by [thres/norm]; returns the pre-clip norm and the new
    gradient. *)
Definition kann_grad_clip (thres : R) (n : nat) (g : nat -> R) : R * (nat -> R) :=
  let s := l2norm n g in
  if Rlt_dec thres s then (s, scale_loop n (thres / s) g) else (s, g).

End Optimizer.

(** ** Nodes and networks *)

Module Kann.
Local Open Scope R_scope.

(** External flags of [kann.h]. *)
Definition KANN_F_IN : N := 1%N.
Definition KANN_F_OUT : N := 2%N.
Definition KANN_F_TRUTH : N := 4%N.
Definition KANN_F_COST : N := 8%N.

Definition KANN_VERSION : string := "r368".

(** Operator kinds (closed catalog).  [OFeed], [OVar] and [OConst] are
    leaves: a feed node reads a caller buffer, a variable node the
    Parameter store, a constant node the Constant store.  [ODropout p] is
    the switch kind.  [OPrev k] is the recurrent state input whose state
    output slot is node [k]; [OZero] is a fresh zero state and [OId] a
    copy, both produced by unrolling. *)
Inductive op : Type :=
| OFeed | OVar | OConst
| OAdd | OSub | OMul | OSum
| ODropout (p : R)
| OPrev (k : nat)
| OZero
| OId.

(** Storage binding of a node: a region of one of the collated stores, or
    locally owned scratch storage. *)
Inductive store_ref : Type :=
| SVar (off : nat)
| SConst (off : nat)
| SScratch.

Record node : Type := mk_node {
  n_op : op;
  n_shape : list nat;
  n_flag : N;
  n_label : Z;
  n_pre : list nat;
  n_store : store_ref
}.

(** A caller-owned float buffer, identified by its address. *)
Definition ptr := nat.

(** [kann_t]: the node list [v] (with [n = length v]), the collated
    variable values [x], gradients [g] and constants [c]; the per-network
    train/eval bit; the caller buffers bound to feed nodes. *)
Record kann_t : Type := mk_kann {
  kn_v : list node;
  kn_x : list R;
  kn_g : list R;
  kn_c : list R;
  kn_train : bool;
  kn_bind : nat -> option ptr
}.

Definition kann_n (a : kann_t) : nat := length (kn_v a).

Definition set_v (a : kann_t) v :=
  mk_kann v (kn_x a) (kn_g a) (kn_c a) (kn_train a) (kn_bind a).
Definition set_g (a : kann_t) g :=
  mk_kann (kn_v a) (kn_x a) g (kn_c a) (kn_train a) (kn_bind a).
Definition set_train (a : kann_t) b :=
  mk_kann (kn_v a) (kn_x a) (kn_g a) (kn_c a) b (kn_bind a).
Definition set_bind (a : kann_t) f :=
  mk_kann (kn_v a) (kn_x a) (kn_g a) (kn_c a) (kn_train a) f.

Definition prod_nat (l : list nat) : nat := fold_right Nat.mul 1%nat l.

(** Number of floats of a node (batch dimension included in the shape). *)
Definition node_len (p : node) : nat := prod_nat (n_shape p).

(** Per-example size: shape product excluding the leading batch dimension. *)
Definition node_dim (p : node) : nat := prod_nat (tl (n_shape p)).

Definition is_var (p : node) : bool :=
  match n_op p with OVar => true | _ => false end.
Definition is_const (p : node) : bool :=
  match n_op p with OConst => true | _ => false end.
Definition is_feed (p : node) : bool :=
  match n_op p with OFeed => true | _ => false end.
Definition is_prev (p : node) : bool :=
  match n_op p with OPrev _ => true | _ => false end.

(** [kad_size_var] / [kad_size_const]: total size of the trainable and of
    the constant nodes. *)
Fixpoint size_var (v : list node) : nat :=
  match v with
  | [] => 0
  | p :: v' => (if is_var p then node_len p else 0) + size_var v'
  end.
Fixpoint size_const (v : list node) : nat :=
  match v with
  | [] => 0
  | p :: v' => (if is_const p then node_len p else 0) + size_const v'
  end.

(** [#define kann_size_var(a) kad_size_var((a)->n, (a)->v)] *)
Definition kann_size_var (a : kann_t) : nat := size_var (kn_v a).
Definition kann_size_const (a : kann_t) : nat := size_const (kn_v a).

(** Storage allocation of the builder: variable and constant nodes get
    consecutive regions of their store, in node order. *)
Fixpoint alloc (v : list node) (ox oc : nat) : list node :=
  match v with
  | [] => []
  | p :: v' =>
    let st := if is_var p then SVar ox else if is_const p then SConst oc else SScratch in
    mk_node (n_op p) (n_shape p) (n_flag p) (n_label p) (n_pre p) st
      :: alloc v' (if is_var p then ox + node_len p else ox)
                  (if is_const p then oc + node_len p else oc)
  end.

(** The data-model invariants of a network (section 3, invariant (2) and
    the builder's layout): regions are laid out in node order and the
    stores have the sizes of the trainable and constant nodes. *)
Definition graph_wf (a : kann_t) : Prop :=
  alloc (kn_v a) 0 0 = kn_v a /\
  length (kn_x a) = size_var (kn_v a) /\
  length (kn_g a) = size_var (kn_v a) /\
  length (kn_c a) = size_const (kn_v a).

(** ** Graph builder: [kann_new] *)

(** A node created by client code, with the initial values of a variable
    or constant leaf.  Predecessors are given as indices into the pool. *)
Definition pool := list (node * list R).

Fixpoint set_nth {A} (l : list A) (i : nat) (x : A) : list A :=
  match l, i with
  | [], _ => []
  | _ :: l', O => x :: l'
  | y :: l', S i' => y :: set_nth l' i' x
  end.

Fixpoint mark_all (m : list bool) (l : list nat) : list bool :=
  match l with
  | [] => m
  | i :: l' => mark_all (set_nth m i true) l'
  end.

(** Reachability by predecessor edges: the pool index [k-1], ..., [0] is
    visited and, if marked, its predecessors are marked. *)
Fixpoint mark_down (pl : pool) (k : nat) (m : list bool) : list bool :=
  match k with
  | O => m
  | S k' =>
    let m' := if nth k' m false
              then mark_all m (n_pre (fst (nth k' pl (mk_node OZero [] 0 0 [] SScratch, []))))
              else m in
    mark_down pl k' m'
  end.

(** New index of pool index [i]: number of kept indices below it. *)
Fixpoint count_below (m : list bool) (i : nat) : nat :=
  match m, i with
  | [], _ => 0
  | _, O => 0
  | b :: m', S i' => (if b then 1 else 0) + count_below m' i'
  end.

Definition renumber (m : list bool) (p : node) : node :=
  mk_node (n_op p) (n_shape p) (n_flag p) (n_label p)
    (map (count_below m) (n_pre p)) (n_store p).

Definition flag_cost (cost i : nat) (p : node) : node :=
  if Nat.eqb i cost
  then mk_node (n_op p) (n_shape p) (N.lor (n_flag p) KANN_F_COST) (n_label p) (n_pre p) (n_store p)
  else p.

Fixpoint kept {A} (m : list bool) (l : list A) : list A :=
  match m, l with
  | b :: m', x :: l' => if b then x :: kept m' l' else kept m' l'
  | _, _ => []
  end.

Definition leaf_data (sel : node -> bool) (l : list (node * list R)) : list R :=
  flat_map (fun pd => if sel (fst pd) then firstn (node_len (fst pd)) (snd pd ++ repeat 0 (node_len (fst pd))) else []) l.

(** Modelled from the spec (body of [kann_new], missing from the sources):
    fails when the designated cost node is not scalar; otherwise collects
    the nodes reachable from the cost node and the extra roots, keeps them
    in creation order (a topological order, predecessors being created
    first), flags the cost node [KANN_F_COST] and allocates the collated
    stores.  A network starts in eval mode with no bound feed. *)
Definition kann_new (pl : pool) (cost : nat) (rest : list nat) : option kann_t :=
  match nth_error pl cost with
  | None => None
  | Some (c, _) =>
    match n_shape c with
    | _ :: _ => None
    | [] =>
      let m := mark_down pl (length pl) (mark_all (repeat false (length pl)) (cost :: rest)) in
      let ps := kept m (combine (seq 0 (length pl)) pl) in
      let v := map (fun ip => renumber m (flag_cost cost (fst ip) (fst (snd ip)))) ps in
      let v' := alloc v 0 0 in
      let x := leaf_data is_var (map snd ps) in
      Some (mk_kann v' x (repeat 0 (length x)) (leaf_data is_const (map snd ps))
              false (fun _ => None))
    end
  end.

(** ** Lookup and feed binding: [kann_find], [kann_feed_dim], [kann_feed_bind] *)

(** The matching rule: the node's flags are a superset of [ext_flag]
    (so [ext_flag = 0] matches any flags) and its label is [ext_label]. *)
Definition node_match (ext_flag : N) (ext_label : Z) (p : node) : bool :=
  N.eqb (N.land (n_flag p) ext_flag) ext_flag && Z.eqb (n_label p) ext_label.

(** [k] is the index found so far, [-1] if none. *)
Fixpoint find_loop (f : N) (l : Z) (v : list node) (i : nat) (k : Z) : Z :=
  match v with
  | [] => k
  | p :: v' =>
    if node_match f l p
    then (if (0 <=? k)%Z then (-2)%Z else find_loop f l v' (S i) (Z.of_nat i))
    else find_loop f l v' (S i) k
  end.

(** Modelled from the spec (body of [kann_find], missing from the sources):
    the unique matching index, [-1] if none matches, [-2] if several do. *)
Definition kann_find (a : kann_t) (ext_flag : N) (ext_label : Z) : Z :=
  find_loop ext_flag ext_label (kn_v a) 0 (-1)%Z.

Fixpoint feed_dim_loop (f : N) (l : Z) (v : list node) (found : bool) (r : Z) : Z :=
  match v with
  | [] => r
  | p :: v' =>
    if node_match f l p
    then (if found then (-2)%Z else feed_dim_loop f l v' true (Z.of_nat (node_dim p)))
    else feed_dim_loop f l v' found r
  end.

(** Modelled from the spec (body of [kann_feed_dim], missing from the
    sources): the same matching rule, returning the per-example size. *)
Definition kann_feed_dim (a : kann_t) (ext_flag : N) (ext_label : Z) : Z :=
  feed_dim_loop ext_flag ext_label (kn_v a) false (-1)%Z.

Fixpoint bind_loop (f : N) (l : Z) (v : list node) (i k : nat) (xs : list ptr)
    (b : nat -> option ptr) : nat * (nat -> option ptr) :=
  match v with
  | [] => (k, b)
  | p :: v' =>
    if is_feed p && node_match f l p
    then bind_loop f l v' (S i) (S k) xs (fun j => if Nat.eqb j i then nth_error xs k else b j)
    else bind_loop f l v' (S i) k xs b
  end.

(** Modelled from the spec (body of [kann_feed_bind], missing from the
    sources): the [k]-th matching feed node, in node order, takes the
    buffer [x[k]] as its value storage (no copy); returns the number of
    matching feed nodes. *)
Definition kann_feed_bind (a : kann_t) (ext_flag : N) (ext_label : Z) (x : list ptr)
    : Z * kann_t :=
  let '(k, b) := bind_loop ext_flag ext_label (kn_v a) 0 0 x (kn_bind a) in
  (Z.of_nat k, set_bind a b).

(** ** Mode switch *)

(** Modelled from the spec (body of [kann_switch]): sets the train/eval bit. *)
Definition kann_switch (a : kann_t) (is_train : Z) : kann_t :=
  set_train a (negb (Z.eqb is_train 0)).

(** ** Evaluator: forward and backward passes, [kann_cost] *)

(** Explicit random state of the dropout masks (a linear congruential
    generator). *)
Definition rng := N.
Definition rng_next (s : rng) : rng := ((1103515245 * s + 12345) mod 2 ^ 31)%N.
Definition rng_uniform (s : rng) : R := IZR (Z.of_N s) / IZR (2 ^ 31).

(** Train-mode dropout: an element is dropped with probability [p], the
    survivors are scaled by [1/(1-p)]. *)
Fixpoint dropout_mask (p : R) (n : nat) (s : rng) : list R * rng :=
  match n with
  | O => ([], s)
  | S n' =>
    let s' := rng_next s in
    let '(m, s'') := dropout_mask p n' s' in
    ((if Rlt_dec (rng_uniform s') p then 0 else / (1 - p)) :: m, s'')
  end.

Definition zip2 (f : R -> R -> R) (a b : list R) : list R :=
  map (fun xy => f (fst xy) (snd xy)) (combine a b).

Definition region (st : store_ref) (x c : list R) (len : nat) : list R :=
  match st with
  | SVar off => firstn len (skipn off x)
  | SConst off => firstn len (skipn off c)
  | SScratch => repeat 0 len
  end.

(** Forward rule of node [i]: reads the values of its predecessors; returns
    its value, its dropout mask (empty if none) and the new random state. *)
Definition eval_node (a : kann_t) (mem : ptr -> list R) (vals : list (list R))
    (i : nat) (p : node) (s : rng) : list R * list R * rng :=
  let pv k := nth (nth k (n_pre p) 0%nat) vals [] in
  match n_op p with
  | OFeed => (match kn_bind a i with Some q => mem q | None => [] end, [], s)
  | OVar | OConst => (region (n_store p) (kn_x a) (kn_c a) (node_len p), [], s)
  | OAdd => (zip2 Rplus (pv 0%nat) (pv 1%nat), [], s)
  | OSub => (zip2 Rminus (pv 0%nat) (pv 1%nat), [], s)
  | OMul => (zip2 Rmult (pv 0%nat) (pv 1%nat), [], s)
  | OSum => ([fold_right Rplus 0 (pv 0%nat)], [], s)
  | ODropout r =>
    if kn_train a
    then let '(m, s') := dropout_mask r (length (pv 0%nat)) s in
         (zip2 Rmult (pv 0%nat) m, m, s')
    else (pv 0%nat, [], s)
  | OPrev _ | OZero => (repeat 0 (node_len p), [], s)
  | OId => (pv 0%nat, [], s)
  end.

(** Forward evaluation in topological (node) order. *)
Fixpoint fwd (a : kann_t) (mem : ptr -> list R) (v : list node) (i : nat)
    (vals masks : list (list R)) (s : rng) : list (list R) * list (list R) * rng :=
  match v with
  | [] => (vals, masks, s)
  | p :: v' =>
    let '(y, m, s') := eval_node a mem vals i p s in
    fwd a mem v' (S i) (vals ++ [y]) (masks ++ [m]) s'
  end.

Definition kad_eval (a : kann_t) (mem : ptr -> list R) (s : rng)
    : list (list R) * list (list R) * rng :=
  fwd a mem (kn_v a) 0 [] [] s.

(** Additive accumulation of [d] into the adjoint of node [k]. *)
Definition add_to (adj : list (list R)) (k : nat) (d : list R) : list (list R) :=
  set_nth adj k (zip2 Rplus (nth k adj []) d).

Definition dummy_node : node := mk_node OZero [] 0 0 [] SScratch.

(** Adjoint rule of node [i] with adjoint [gi]. *)
Definition adj_rule (a : kann_t) (vals masks : list (list R)) (i : nat)
    (gi : list R) (adj : list (list R)) : list (list R) :=
  let p := nth i (kn_v a) dummy_node in
  let k n := nth n (n_pre p) 0%nat in
  let pv n := nth (k n) vals [] in
  match n_op p with
  | OAdd => add_to (add_to adj (k 0%nat) gi) (k 1%nat) gi
  | OSub => add_to (add_to adj (k 0%nat) gi) (k 1%nat) (map Ropp gi)
  | OMul => add_to (add_to adj (k 0%nat) (zip2 Rmult gi (pv 1%nat))) (k 1%nat) (zip2 Rmult gi (pv 0%nat))
  | OSum => add_to adj (k 0%nat) (repeat (hd 0 gi) (length (pv 0%nat)))
  | ODropout _ =>
    if kn_train a then add_to adj (k 0%nat) (zip2 Rmult gi (nth i masks []))
    else add_to adj (k 0%nat) gi
  | OId => add_to adj (k 0%nat) gi
  | _ => adj
  end.

(** Backward pass over nodes [k-1], ..., [0] (reverse topological order). *)
Fixpoint bwd (a : kann_t) (vals masks : list (list R)) (k : nat)
    (adj : list (list R)) : list (list R) :=
  match k with
  | O => adj
  | S k' => bwd a vals masks k' (adj_rule a vals masks k' (nth k' adj []) adj)
  end.

(** [g[off..]] += [d] *)
Fixpoint add_at (off : nat) (d g : list R) : list R :=
  match g with
  | [] => []
  | y :: g' =>
    match off with
    | S o => y :: add_at o d g'
    | O => match d with [] => g | z :: d' => (y + z) :: add_at 0 d' g' end
    end
  end.

(** Accumulation of the adjoints of the variable nodes into their regions
    of the Gradient store. *)
Fixpoint collate (v : list node) (adj : list (list R)) (g : list R) : list R :=
  match v, adj with
  | p :: v', d :: adj' =>
    collate v' adj'
      (match n_store p with SVar off => if is_var p then add_at off d g else g | _ => g end)
  | _, _ => g
  end.

Fixpoint first_match (f : N) (l : Z) (v : list node) (i : nat) : option nat :=
  match v with
  | [] => None
  | p :: v' => if node_match f l p then Some i else first_match f l v' (S i)
  end.

(** Modelled from the spec (body of [kann_cost], missing from the sources):
    locates the first node flagged [KANN_F_COST] with label [cost_label],
    runs the forward pass; if [cal_grad] is non-zero, zeros the Gradient
    store, seeds the adjoint of the cost node to 1 and runs the adjoint
    rules in reverse topological order.  Returns the cost value, the
    network and the new random state; [None] when no cost node matches. *)
Definition kann_cost (a : kann_t) (cost_label : Z) (cal_grad : Z)
    (mem : ptr -> list R) (s : rng) : option (R * kann_t * rng) :=
  match first_match KANN_F_COST cost_label (kn_v a) 0 with
  | None => None
  | Some i =>
    let '(vals, masks, s') := kad_eval a mem s in
    let cost := hd 0 (nth i vals []) in
    if Z.eqb cal_grad 0 then Some (cost, a, s')
    else
      let seed := set_nth (map (fun y => repeat 0 (length y)) vals) i [1] in
      let adj := bwd a vals masks (S i) seed in
      Some (cost, set_g a (collate (kn_v a) adj (repeat 0 (length (kn_g a)))), s')
  end.

(** ** Unroller: [kann_unroll] *)

Definition is_shared (p : node) : bool := is_var p || is_const p.

Definition indexed (v : list node) : list (nat * node) := combine (seq 0 (length v)) v.

Definition shared_part (v : list node) : list (nat * node) :=
  filter (fun ip => is_shared (snd ip)) (indexed v).
Definition variant_part (v : list node) : list (nat * node) :=
  filter (fun ip => negb (is_shared (snd ip))) (indexed v).

Fixpoint index_of (j : nat) (l : list nat) : nat :=
  match l with
  | [] => 0
  | x :: l' => if Nat.eqb x j then 0 else S (index_of j l')
  end.

(** Index in the unrolled graph of node [j] of replica [t]: the shared nodes
    come first, then the replicas [0 .. len-1] of the time-variant nodes. *)
Definition umap (v : list node) (t j : nat) : nat :=
  if is_shared (nth j v dummy_node)
  then index_of j (map fst (shared_part v))
  else length (shared_part v) + t * length (variant_part v)
       + index_of j (map fst (variant_part v)).

(** Replica [t] of a time-variant node: the state input of replica 0 is a
    fresh zero state, that of replica [t+1] copies the state output of
    replica [t]. *)
Definition replica (v : list node) (t : nat) (ip : nat * node) : node :=
  let p := snd ip in
  match n_op p with
  | OPrev k =>
    match t with
    | O => mk_node OZero (n_shape p) (n_flag p) (n_label p) [] SScratch
    | S t' => mk_node OId (n_shape p) (n_flag p) (n_label p) [umap v t' k] SScratch
    end
  | o => mk_node o (n_shape p) (n_flag p) (n_label p) (map (umap v t) (n_pre p)) SScratch
  end.

(** Modelled from the spec (body of [kann_unroll], missing from the
    sources): [None] if the network has no recurrent state node; otherwise
    one shared copy of every trainable and constant node (storage offsets
    inherited, stores borrowed from [a]) followed by [len] replicas of the
    time-variant nodes. *)
Definition kann_unroll (a : kann_t) (len : nat) : option kann_t :=
  let v := kn_v a in
  if existsb is_prev v
  then Some (mk_kann (map snd (shared_part v)
                      ++ flat_map (fun t => map (replica v t) (variant_part v)) (seq 0 len))
                     (kn_x a) (kn_g a) (kn_c a) (kn_train a) (fun _ => None))
  else None.

(** ** Model I/O: [kann_save], [kann_load] *)

(** The persisted model is a sequence of tokens. *)
Inductive token : Type :=
| TStr (s : string)
| TNat (n : nat)
| TN (n : N)
| TZ (z : Z)
| TR (r : R).

Definition op_tokens (o : op) : list token :=
  match o with
  | OFeed => [TNat 0] | OVar => [TNat 1] | OConst => [TNat 2]
  | OAdd => [TNat 3] | OSub => [TNat 4] | OMul => [TNat 5] | OSum => [TNat 6]
  | ODropout p => [TNat 7; TR p]
  | OPrev k => [TNat 8; TNat k]
  | OZero => [TNat 9] | OId => [TNat 10]
  end.

Definition nats_tokens (l : list nat) : list token := TNat (length l) :: map TNat l.

Definition node_tokens (p : node) : list token :=
  op_tokens (n_op p) ++ nats_tokens (n_shape p) ++ [TN (n_flag p); TZ (n_label p)]
  ++ nats_tokens (n_pre p).

(** Modelled from the spec (body of [kann_save], missing from the sources;
    section 6): version tag, node count, per node its operator, shape,
    flags, label and predecessors, then the Parameter store, then the
    Constant store. *)
Definition kann_save (a : kann_t) : list token :=
  [TStr KANN_VERSION; TNat (length (kn_v a))]
  ++ flat_map node_tokens (kn_v a) ++ map TR (kn_x a) ++ map TR (kn_c a).

Definition get_op (ts : list token) : option (op * list token) :=
  match ts with
  | TNat 0 :: r => Some (OFeed, r)
  | TNat 1 :: r => Some (OVar, r)
  | TNat 2 :: r => Some (OConst, r)
  | TNat 3 :: r => Some (OAdd, r)
  | TNat 4 :: r => Some (OSub, r)
  | TNat 5 :: r => Some (OMul, r)
  | TNat 6 :: r => Some (OSum, r)
  | TNat 7 :: TR p :: r => Some (ODropout p, r)
  | TNat 8 :: TNat k :: r => Some (OPrev k, r)
  | TNat 9 :: r => Some (OZero, r)
  | TNat 10 :: r => Some (OId, r)
  | _ => None
  end.

Fixpoint get_nats_n (n : nat) (ts : list token) : option (list nat * list token) :=
  match n with
  | O => Some ([], ts)
  | S n' =>
    match ts with
    | TNat k :: r =>
      match get_nats_n n' r with Some (l, r') => Some (k :: l, r') | None => None end
    | _ => None
    end
  end.

Definition get_nats (ts : list token) : option (list nat * list token) :=
  match ts with TNat n :: r => get_nats_n n r | _ => None end.

Definition get_node (ts : list token) : option (node * list token) :=
  match get_op ts with
  | None => None
  | Some (o, r1) =>
    match get_nats r1 with
    | Some (sh, TN f :: TZ l :: r2) =>
      match get_nats r2 with
      | Some (pre, r3) => Some (mk_node o sh f l pre SScratch, r3)
      | None => None
      end
    | _ => None
    end
  end.

Fixpoint get_nodes (n : nat) (ts : list token) : option (list node * list token) :=
  match n with
  | O => Some ([], ts)
  | S n' =>
    match get_node ts with
    | Some (p, r) =>
      match get_nodes n' r with Some (v, r') => Some (p :: v, r') | None => None end
    | None => None
    end
  end.

Fixpoint get_reals (n : nat) (ts : list token) : option (list R * list token) :=
  match n with
  | O => Some ([], ts)
  | S n' =>
    match ts with
    | TR y :: r =>
      match get_reals n' r with Some (l, r') => Some (y :: l, r') | None => None end
    | _ => None
    end
  end.

(** Modelled from the spec (body of [kann_load], missing from the sources):
    fails on a wrong version tag or a truncated or corrupt model; storage
    regions are re-allocated in node order; the loaded network is in eval
    mode, has a zero Gradient store and no bound feed. *)
Definition kann_load (ts : list token) : option kann_t :=
  match ts with
  | TStr ver :: TNat n :: r =>
    if String.eqb ver KANN_VERSION then
      match get_nodes n r with
      | Some (nodes, r1) =>
        let v := alloc nodes 0 0 in
        match get_reals (size_var v) r1 with
        | Some (xs, r2) =>
          match get_reals (size_const v) r2 with
          | Some (cs, []) => Some (mk_kann v xs (repeat 0 (length xs)) cs false (fun _ => None))
          | _ => None
          end
        | None => None
        end
      | None => None
      end
    else None
  | _ => None
  end.

(** ** Auxiliary definitions for the specifications *)

(** The matching nodes, with their indices, in node order. *)
Definition matched_from (f : N) (l : Z) (v : list node) (i : nat) : list (nat * node) :=
  filter (fun ip => node_match f l (snd ip)) (combine (seq i (length v)) v).

Definition matched (f : N) (l : Z) (v : list node) : list (nat * node) :=
  matched_from f l v 0.

(** Indices of the matching feed nodes from index [i] on, in node order. *)
Definition feeds_from (f : N) (l : Z) (v : list node) (i : nat) : list nat :=
  map fst (filter (fun ip => is_feed (snd ip) && node_match f l (snd ip))
             (combine (seq i (length v)) v)).

Definition feeds (f : N) (l : Z) (v : list node) : list nat := feeds_from f l v 0.

(** The nodes [kann_feed_bind] binds. *)
Definition feed_sel (f : N) (l : Z) (p : node) : bool := is_feed p && node_match f l p.

(** The evaluator reads a network only through its nodes, its Parameter and
    Constant stores, its mode and its feed bindings. *)
Definition same_runtime (a b : kann_t) : Prop :=
  kn_v a = kn_v b /\ kn_x a = kn_x b /\ kn_c a = kn_c b /\
  kn_train a = kn_train b /\ kn_bind a = kn_bind b.

Definition strip (p : node) : node :=
  mk_node (n_op p) (n_shape p) (n_flag p) (n_label p) (n_pre p) SScratch.

(** The cost value and random state returned by [kann_cost]. *)
Definition cost_of (r : option (R * kann_t * rng)) : option R :=
  option_map (fun r => fst (fst r)) r.

(** ** Header macros *)

(** [#define kann_dim_in(a) kann_feed_dim((a), KANN_F_IN, 0)] *)
Definition kann_dim_in (a : kann_t) : Z := kann_feed_dim a KANN_F_IN 0.

(** [#define kann_dim_out(a) kann_feed_dim((a), KANN_F_TRUTH, 0)] *)
Definition kann_dim_out (a : kann_t) : Z := kann_feed_dim a KANN_F_TRUTH 0.


Definition is_switch (p : node) : bool :=
  match n_op p with ODropout _ => true | _ => false end.

End Kann.

(** ** Example networks *)

Module Examples.
Import Kann.
Local Open Scope R_scope.

Definition leaf (o : op) (sh : list nat) (f : N) : node := mk_node o sh f 0 [] SScratch.
Definition inner (o : op) (sh : list nat) (pre : list nat) : node := mk_node o sh 0 0 pre SScratch.

Definition empty_net : kann_t := mk_kann [] [] [] [] false (fun _ => None).

(** cost = sum (x * w), with an input [x] and a weight [w] of 3 floats. *)
Definition pool_lin : pool :=
  [ (leaf OFeed [1; 3]%nat KANN_F_IN, []);
    (leaf OVar [1; 3]%nat 0, [1; 2; 3]);
    (inner OMul [1; 3]%nat [0; 1]%nat, []);
    (inner OSum [] [2]%nat, []) ].

Definition net_lin : kann_t :=
  match kann_new pool_lin 3 [] with Some a => a | None => empty_net end.

(** [net_lin] with its input bound to the buffer at address 7. *)
Definition net_lin_fed : kann_t := snd (kann_feed_bind net_lin KANN_F_IN 0 [7%nat]).

(** A recurrent cell: h_t = x_t + h_{t-1}, cost = sum (h_t * w). *)
Definition pool_rnn : pool :=
  [ (leaf OFeed [1; 1]%nat KANN_F_IN, []);
    (leaf (OPrev 3) [1; 1]%nat 0, []);
    (leaf OVar [1; 1]%nat 0, [2]);
    (inner OAdd [1; 1]%nat [0; 1]%nat, []);
    (inner OMul [1; 1]%nat [3; 2]%nat, []);
    (inner OSum [] [4]%nat, []) ].

Definition net_rnn : kann_t :=
  match kann_new pool_rnn 5 [] with Some a => a | None => empty_net end.

Definition net_rnn3 : kann_t :=
  match kann_unroll net_rnn 3 with Some a => a | None => empty_net end.


End Examples.

(** ** Properties of the optimizer *)

Module OptimizerFacts.
Import Optimizer.
Local Open Scope R_scope.

Lemma rms_step_frame h0 h decay g i tr j :
  j <> i ->
  fst (rms_step h0 h decay g i tr) j = fst tr j /\
  snd (rms_step h0 h decay g i tr) j = snd tr j.
Proof.
  intros Hji. destruct tr as [t r]. unfold rms_step, upd; simpl.
  apply Nat.eqb_neq in Hji. rewrite Hji. auto.
Qed.

Lemma rms_loop_frame n h0 h decay g tr j :
  (n <= j)%nat ->
  fst (rms_loop n h0 h decay g tr) j = fst tr j /\
  snd (rms_loop n h0 h decay g tr) j = snd tr j.
Proof.
  induction n as [|n IH]; intros Hj; simpl; [auto|].
  destruct (rms_step_frame h0 h decay g n (rms_loop n h0 h decay g tr) j) as [E1 E2]; [lia|].
  rewrite E1, E2. apply IH. lia.
Qed.

Lemma rms_loop_at n h0 h decay g t r i :
  (i < n)%nat ->
  let tr' := rms_loop n h0 h decay g (t, r) in
  let lr := match h with Some hh => hh i | None => h0 end in
  snd tr' i = decay * r i + (1 - decay) * g i * g i /\
  fst tr' i = t i - lr * g i / sqrt (snd tr' i + RMS_EPS).
Proof.
  induction n as [|n IH]; intros Hi; simpl; [lia|].
  destruct (Nat.eq_dec i n) as [->|Hne].
  - destruct (rms_loop_frame n h0 h decay g (t, r) n (le_n n)) as [E1 E2].
    destruct (rms_loop n h0 h decay g (t, r)) as [t1 r1] eqn:E; simpl in *.
    unfold upd. rewrite Nat.eqb_refl. rewrite E1, E2. split; reflexivity.
  - destruct (rms_step_frame h0 h decay g n (rms_loop n h0 h decay g (t, r)) i Hne) as [E1 E2].
    rewrite E1, E2. apply IH. lia.
Qed.

Lemma sum_sq_ext n f f' :
  (forall j, (j < n)%nat -> f j = f' j) -> sum_sq n f = sum_sq n f'.
Proof.
  induction n as [|n IH]; intros Hf; simpl; [reflexivity|].
  rewrite IH by (intros; apply Hf; lia). rewrite Hf by lia. reflexivity.
Qed.

Lemma sum_sq_nonneg n f : 0 <= sum_sq n f.
Proof.
  induction n as [|n IH]; simpl; [lra|].
  pose proof (Rle_0_sqr (f n)) as Hs. unfold Rsqr in Hs. lra.
Qed.

Lemma scale_loop_at n s g j :
  scale_loop n s g j = if Nat.ltb j n then g j * s else g j.
Proof.
  revert j; induction n as [|n IH]; intros j; simpl.
  - destruct (Nat.ltb j 0) eqn:E; [apply Nat.ltb_lt in E; lia|reflexivity].
  - unfold upd. rewrite !IH.
    destruct (Nat.eqb j n) eqn:E.
    + apply Nat.eqb_eq in E; subst.
      destruct (Nat.ltb_spec n n), (Nat.ltb_spec n (S n)); try reflexivity; lia.
    + apply Nat.eqb_neq in E.
      destruct (Nat.ltb_spec j n), (Nat.ltb_spec j (S n)); try reflexivity; lia.
Qed.

Lemma sum_sq_scale n s g : sum_sq n (scale_loop n s g) = s * s * sum_sq n g.
Proof.
  rewrite (sum_sq_ext n (scale_loop n s g) (fun j => g j * s)).
  - clear. induction n as [|n IH]; simpl; [ring|]. rewrite IH. ring.
  - intros j Hj. rewrite scale_loop_at. apply Nat.ltb_lt in Hj. rewrite Hj. reflexivity.
Qed.

Lemma l2norm_scale n s g : 0 <= s -> l2norm n (scale_loop n s g) = s * l2norm n g.
Proof.
  intros Hs. unfold l2norm. rewrite sum_sq_scale.
  rewrite sqrt_mult_alt by nra. rewrite sqrt_square by lra. reflexivity.
Qed.

Lemma l2norm_nonneg n g : 0 <= l2norm n g.
Proof. apply sqrt_pos. Qed.

End OptimizerFacts.

(** ** Properties of the network engine *)

Module KannFacts.
Import Kann.
Local Open Scope R_scope.

(** *** Parameter sizes under unrolling *)

Lemma size_var_app l1 l2 : size_var (l1 ++ l2) = (size_var l1 + size_var l2)%nat.
Proof. induction l1 as [|p l1 IH]; simpl; [reflexivity|]. rewrite IH. lia. Qed.

Lemma map_snd_combine_seq k (v : list node) : map snd (combine (seq k (length v)) v) = v.
Proof.
  revert k; induction v as [|p v IH]; intros k; simpl; [reflexivity|]. rewrite IH. reflexivity.
Qed.

Lemma size_var_shared (l : list (nat * node)) :
  size_var (map snd (filter (fun ip => is_shared (snd ip)) l)) = size_var (map snd l).
Proof.
  induction l as [|[i p] l IH]; simpl; [reflexivity|].
  unfold is_shared in *. destruct (is_var p) eqn:Ev; simpl.
  - rewrite Ev, IH. reflexivity.
  - destruct (is_const p); simpl; rewrite ?Ev, IH; reflexivity.
Qed.

Lemma replica_not_var v t ip :
  is_shared (snd ip) = false -> is_var (replica v t ip) = false.
Proof.
  destruct ip as [i p]; simpl. unfold is_shared, replica, is_var; simpl.
  destruct (n_op p); simpl; try discriminate; try reflexivity.
  destruct t; reflexivity.
Qed.

Lemma size_var_replicas v ts :
  size_var (flat_map (fun t => map (replica v t) (variant_part v)) ts) = 0%nat.
Proof.
  induction ts as [|t ts IH]; simpl; [reflexivity|].
  rewrite size_var_app, IH. unfold variant_part.
  induction (indexed v) as [|ip l IHl]; simpl; [reflexivity|].
  destruct (is_shared (snd ip)) eqn:E; simpl; [exact IHl|].
  rewrite replica_not_var by exact E. exact IHl.
Qed.

Lemma size_var_unroll a len b :
  kann_unroll a len = Some b -> kann_size_var b = kann_size_var a.
Proof.
  unfold kann_unroll, kann_size_var. destruct (existsb is_prev (kn_v a)); [|discriminate].
  intros H; injection H as <-; simpl.
  rewrite size_var_app, size_var_replicas. unfold shared_part, indexed.
  rewrite size_var_shared, map_snd_combine_seq. lia.
Qed.

(** *** Matching *)


Lemma find_loop_found f l v i k :
  (0 <= k)%Z ->
  find_loop f l v i k = match matched_from f l v i with [] => k | _ => (-2)%Z end.
Proof.
  revert i; induction v as [|p v IH]; intros i; simpl; [reflexivity|].
  unfold matched_from; simpl.
  destruct (node_match f l p) eqn:E; simpl.
  - destruct (Z.leb_spec 0 k); [reflexivity|lia].
  - apply IH.
Qed.

Lemma find_loop_none f l v i :
  find_loop f l v i (-1)%Z =
  match matched_from f l v i with
  | [] => (-1)%Z | [(j, _)] => Z.of_nat j | _ => (-2)%Z
  end.
Proof.
  revert i; induction v as [|p v IH]; intros i; simpl; [reflexivity|].
  unfold matched_from at 1; simpl.
  destruct (node_match f l p) eqn:E; simpl.
  - rewrite find_loop_found by lia. fold (matched_from f l v (S i)).
    destruct (matched_from f l v (S i)); reflexivity.
  - rewrite IH. reflexivity.
Qed.

Lemma feed_dim_loop_found f l v i r :
  feed_dim_loop f l v true r = match matched_from f l v i with [] => r | _ => (-2)%Z end.
Proof.
  revert i; induction v as [|p v IH]; intros i; simpl; [reflexivity|].
  unfold matched_from; simpl.
  destruct (node_match f l p) eqn:E; simpl; [reflexivity|].
  apply IH.
Qed.

Lemma feed_dim_loop_none f l v i :
  feed_dim_loop f l v false (-1)%Z =
  match matched_from f l v i with
  | [] => (-1)%Z | [(_, p)] => Z.of_nat (node_dim p) | _ => (-2)%Z
  end.
Proof.
  revert i; induction v as [|p v IH]; intros i; simpl; [reflexivity|].
  unfold matched_from at 1; simpl.
  destruct (node_match f l p) eqn:E; simpl.
  - rewrite (feed_dim_loop_found f l v (S i)). fold (matched_from f l v (S i)).
    destruct (matched_from f l v (S i)); reflexivity.
  - apply IH.
Qed.

Lemma In_combine_seq k (v : list node) j p :
  In (j, p) (combine (seq k (length v)) v) <-> (k <= j)%nat /\ nth_error v (j - k) = Some p.
Proof.
  revert k; induction v as [|q v IH]; intros k; simpl.
  - split; [intros []|]. intros [_ H]. destruct (j - k)%nat; discriminate.
  - rewrite IH. split.
    + intros [H|[H1 H2]].
      * injection H as <- <-. rewrite Nat.sub_diag. auto.
      * split; [lia|]. replace (j - k)%nat with (S (j - S k)) by lia. exact H2.
    + intros [H1 H2]. destruct (Nat.eq_dec j k) as [->|Hne].
      * left. rewrite Nat.sub_diag in H2. injection H2 as ->. reflexivity.
      * right. split; [lia|]. replace (j - k)%nat with (S (j - S k)) in H2 by lia. exact H2.
Qed.

Lemma In_matched f l v j p :
  In (j, p) (matched f l v) <-> nth_error v j = Some p /\ node_match f l p = true.
Proof.
  unfold matched, matched_from. rewrite filter_In, In_combine_seq, Nat.sub_0_r. simpl.
  split; [intros [[_ H1] H2]; auto | intros [H1 H2]; repeat split; auto; lia].
Qed.

Lemma node_match_superset f l p :
  node_match f l p = true <->
  (forall b, N.testbit f b = true -> N.testbit (n_flag p) b = true) /\ n_label p = l.
Proof.
  unfold node_match. rewrite andb_true_iff, N.eqb_eq, Z.eqb_eq. split.
  - intros [H1 H2]. split; [|exact H2]. intros b Hb.
    rewrite <- H1 in Hb. rewrite N.land_spec in Hb. apply andb_true_iff in Hb. apply Hb.
  - intros [H1 H2]. split; [|exact H2]. apply N.bits_inj. intros b.
    rewrite N.land_spec. destruct (N.testbit f b) eqn:E.
    + rewrite H1 by exact E. reflexivity.
    + apply andb_false_r.
Qed.

(** *** Feed binding *)


Lemma feeds_from_cons f l p v i :
  feeds_from f l (p :: v) i =
  if is_feed p && node_match f l p then i :: feeds_from f l v (S i) else feeds_from f l v (S i).
Proof. unfold feeds_from; simpl. destruct (is_feed p && node_match f l p); reflexivity. Qed.

Lemma feeds_from_ge f l v i j : In j (feeds_from f l v i) -> (i <= j)%nat.
Proof.
  unfold feeds_from. rewrite in_map_iff. intros [[j' p] [Hj Hin]]. simpl in Hj; subst j'.
  apply filter_In in Hin as [Hin _]. apply In_combine_seq in Hin. lia.
Qed.

Lemma feeds_from_sorted f l v i : StronglySorted lt (feeds_from f l v i).
Proof.
  revert i; induction v as [|p v IH]; intros i; [constructor|].
  rewrite feeds_from_cons. destruct (is_feed p && node_match f l p); [|apply IH].
  constructor; [apply IH|]. apply Forall_forall. intros j Hj.
  apply feeds_from_ge in Hj. lia.
Qed.

Lemma In_feeds f l v j :
  In j (feeds f l v) <->
  exists p, nth_error v j = Some p /\ is_feed p = true /\ node_match f l p = true.
Proof.
  unfold feeds, feeds_from. rewrite in_map_iff. split.
  - intros [[j' p] [Hj Hin]]. simpl in Hj; subst j'.
    apply filter_In in Hin as [Hin Hm]. apply In_combine_seq in Hin.
    rewrite Nat.sub_0_r in Hin. simpl in Hm. apply andb_true_iff in Hm.
    exists p. intuition.
  - intros [p [H1 [H2 H3]]]. exists (j, p). split; [reflexivity|].
    apply filter_In. split.
    + apply In_combine_seq. rewrite Nat.sub_0_r. split; [lia|exact H1].
    + simpl. rewrite H2, H3. reflexivity.
Qed.

Lemma bind_loop_spec f l xs v i k b :
  let '(k', b') := bind_loop f l v i k xs b in
  k' = (k + length (feeds_from f l v i))%nat /\
  (forall m j, nth_error (feeds_from f l v i) m = Some j -> b' j = nth_error xs (k + m)) /\
  (forall j, ~ In j (feeds_from f l v i) -> b' j = b j).
Proof.
  revert i k b; induction v as [|p v IH]; intros i k b; simpl.
  - split; [unfold feeds_from; simpl; lia|]. split; [|reflexivity].
    intros m j H. unfold feeds_from in H; simpl in H. destruct m; discriminate.
  - rewrite feeds_from_cons. destruct (is_feed p && node_match f l p) eqn:E.
    + match goal with |- context [bind_loop f l v (S i) (S k) xs ?b1] =>
        specialize (IH (S i) (S k) b1) end.
      destruct (bind_loop f l v (S i) (S k) xs _) as [k' b'].
      destruct IH as [H1 [H2 H3]]. simpl. split; [lia|]. split.
      * intros [|m] j H; simpl in H.
        -- injection H as <-. rewrite H3.
           ++ rewrite Nat.eqb_refl, Nat.add_0_r. reflexivity.
           ++ intros Hin. apply feeds_from_ge in Hin. lia.
        -- rewrite (H2 m j H). f_equal. lia.
      * intros j Hj. rewrite H3 by (intros Hin; apply Hj; right; exact Hin).
        destruct (Nat.eqb_spec j i); [|reflexivity]. subst. exfalso. apply Hj. left. reflexivity.
    + apply IH.
Qed.

(** *** Evaluator *)

Lemma fwd_length a mem v i vals masks s :
  length (fst (fst (fwd a mem v i vals masks s))) = (length vals + length v)%nat.
Proof.
  revert i vals masks s; induction v as [|p v IH]; intros i vals masks s; simpl; [lia|].
  destruct (eval_node a mem vals i p s) as [[y m] s'].
  rewrite IH, length_app. simpl. lia.
Qed.

Lemma kad_eval_length a mem s : length (fst (fst (kad_eval a mem s))) = kann_n a.
Proof. unfold kad_eval, kann_n. rewrite fwd_length. reflexivity. Qed.

Lemma first_match_spec f l v k i :
  first_match f l v k = Some i ->
  (k <= i < k + length v)%nat /\ node_match f l (nth (i - k) v dummy_node) = true /\
  (forall j, (k <= j < i)%nat -> node_match f l (nth (j - k) v dummy_node) = false).
Proof.
  revert k; induction v as [|p v IH]; intros k H; simpl in H; [discriminate|].
  destruct (node_match f l p) eqn:E.
  - injection H as <-. rewrite Nat.sub_diag. simpl. split; [lia|]. split; [exact E|].
    intros j Hj. lia.
  - destruct (IH (S k) H) as [H1 [H2 H3]]. simpl. split; [lia|]. split.
    + replace (i - k)%nat with (S (i - S k)) by lia. exact H2.
    + intros j Hj. destruct (Nat.eq_dec j k) as [->|Hne].
      * rewrite Nat.sub_diag. exact E.
      * replace (j - k)%nat with (S (j - S k)) by lia. apply H3. lia.
Qed.

Lemma nth_set_nth {A} (l : list A) i x d : (i < length l)%nat -> nth i (set_nth l i x) d = x.
Proof.
  revert i; induction l as [|y l IH]; intros i Hi; simpl in Hi; [lia|].
  destruct i; simpl; [reflexivity|]. apply IH. lia.
Qed.

Lemma length_set_nth {A} (l : list A) i x : length (set_nth l i x) = length l.
Proof. revert i; induction l; intros [|i]; simpl; auto. Qed.

(** Adjoints accumulate additively. *)
Lemma add_to_nth adj k d :
  (k < length adj)%nat -> nth k (add_to adj k d) [] = zip2 Rplus (nth k adj []) d.
Proof. intros Hk. unfold add_to. apply nth_set_nth. exact Hk. Qed.


Lemma eval_node_ext a b mem vals i p s :
  same_runtime a b -> eval_node a mem vals i p s = eval_node b mem vals i p s.
Proof.
  intros (_ & Hx & Hc & Ht & Hb). unfold eval_node. rewrite Hx, Hc, Ht, Hb. reflexivity.
Qed.

Lemma fwd_ext a b mem v i vals masks s :
  same_runtime a b -> fwd a mem v i vals masks s = fwd b mem v i vals masks s.
Proof.
  intros H. revert i vals masks s; induction v as [|p v IH]; intros i vals masks s; simpl;
    [reflexivity|].
  rewrite (eval_node_ext a b) by exact H.
  destruct (eval_node b mem vals i p s) as [[y m] s']. apply IH.
Qed.

Lemma kad_eval_ext a b mem s : same_runtime a b -> kad_eval a mem s = kad_eval b mem s.
Proof.
  intros H. unfold kad_eval. rewrite (proj1 H). apply fwd_ext. exact H.
Qed.

Lemma bwd_ext a b vals masks k adj :
  same_runtime a b -> bwd a vals masks k adj = bwd b vals masks k adj.
Proof.
  intros H. revert adj; induction k as [|k IH]; intros adj; simpl; [reflexivity|].
  replace (adj_rule a vals masks k (nth k adj []) adj)
    with (adj_rule b vals masks k (nth k adj []) adj).
  - apply IH.
  - destruct H as (Hv & _ & _ & Ht & _). unfold adj_rule. rewrite Hv, Ht. reflexivity.
Qed.

(** [kann_cost] on networks with the same runtime state and Gradient stores
    of the same length. *)
Lemma kann_cost_ext a b lab cal mem s :
  same_runtime a b -> length (kn_g a) = length (kn_g b) ->
  option_map (fun r => (fst (fst r), snd r)) (kann_cost a lab cal mem s) =
  option_map (fun r => (fst (fst r), snd r)) (kann_cost b lab cal mem s).
Proof.
  intros H Hg. unfold kann_cost. rewrite (proj1 H), (kad_eval_ext a b) by exact H.
  destruct (first_match KANN_F_COST lab (kn_v b) 0) as [i|]; [|reflexivity].
  destruct (kad_eval b mem s) as [[vals masks] s'].
  destruct (Z.eqb cal 0); reflexivity.
Qed.

(** In eval mode the forward pass neither reads nor advances the random
    state. *)
Lemma eval_node_eval_mode a mem vals i p :
  kn_train a = false ->
  exists y m, forall s, eval_node a mem vals i p s = (y, m, s).
Proof.
  intros Ht. unfold eval_node. rewrite Ht.
  destruct (n_op p); eexists; eexists; intros s; reflexivity.
Qed.

Lemma fwd_eval_mode a mem v :
  kn_train a = false ->
  forall i vals masks, exists vals' masks',
    forall s, fwd a mem v i vals masks s = (vals', masks', s).
Proof.
  intros Ht. induction v as [|p v IH]; intros i vals masks; simpl.
  - exists vals, masks. reflexivity.
  - destruct (eval_node_eval_mode a mem vals i p Ht) as [y [m Hy]].
    destruct (IH (S i) (vals ++ [y]) (masks ++ [m])) as [vals' [masks' Hf]].
    exists vals', masks'. intros s. rewrite Hy. apply Hf.
Qed.

(** *** Model I/O *)


Lemma get_op_tokens o r : get_op (op_tokens o ++ r) = Some (o, r).
Proof. destruct o; reflexivity. Qed.

Lemma get_nats_n_tokens l r : get_nats_n (length l) (map TNat l ++ r) = Some (l, r).
Proof. induction l as [|k l IH]; simpl; [reflexivity|]. rewrite IH. reflexivity. Qed.

Lemma get_nats_tokens l r : get_nats (nats_tokens l ++ r) = Some (l, r).
Proof. unfold nats_tokens. simpl. apply get_nats_n_tokens. Qed.

Lemma get_node_tokens p r : get_node (node_tokens p ++ r) = Some (strip p, r).
Proof.
  unfold get_node, node_tokens. rewrite <- !app_assoc, get_op_tokens, get_nats_tokens.
  cbn [app]. rewrite get_nats_tokens. reflexivity.
Qed.

Lemma get_nodes_tokens v r :
  get_nodes (length v) (flat_map node_tokens v ++ r) = Some (map strip v, r).
Proof.
  induction v as [|p v IH]; simpl; [reflexivity|].
  rewrite <- app_assoc, get_node_tokens, IH. reflexivity.
Qed.

Lemma get_reals_tokens xs r : get_reals (length xs) (map TR xs ++ r) = Some (xs, r).
Proof. induction xs as [|y xs IH]; simpl; [reflexivity|]. rewrite IH. reflexivity. Qed.

Lemma alloc_strip v ox oc : alloc (map strip v) ox oc = alloc v ox oc.
Proof. revert ox oc; induction v as [|p v IH]; intros ox oc; simpl; [reflexivity|]. rewrite IH. reflexivity. Qed.



Lemma kann_load_save_eq a :
  graph_wf a ->
  kann_load (kann_save a) =
  Some (mk_kann (kn_v a) (kn_x a) (repeat 0 (length (kn_x a))) (kn_c a) false (fun _ => None)).
Proof.
  intros (Hv & Hx & _ & Hc). unfold kann_save, kann_load. simpl.
  rewrite get_nodes_tokens, alloc_strip, Hv.
  rewrite <- Hx, get_reals_tokens. rewrite <- Hc.
  replace (map TR (kn_c a)) with (map TR (kn_c a) ++ []) by apply app_nil_r.
  rewrite get_reals_tokens. reflexivity.
Qed.

(** Without gradients, [kann_cost] hands back the network unchanged. *)
Lemma kann_cost_nograd_net a lab mem s :
  match kann_cost a lab 0 mem s with Some (_, a', _) => a' = a | None => True end.
Proof.
  unfold kann_cost. destruct (first_match KANN_F_COST lab (kn_v a) 0); [|exact I].
  destruct (kad_eval a mem s) as [[vals masks] s']. reflexivity.
Qed.

End KannFacts.

(** ** The specification of the engine *)

Module Claims.
Import Optimizer Kann Examples OptimizerFacts KannFacts.
Local Open Scope R_scope.

(** C1: unrolling a network by [len >= 1] steps leaves the Parameter store
    size unchanged: replicas reference, never duplicate, trainable storage. *)
Theorem unroll_preserves_size_var (a b : kann_t) (len : nat)
    (Hlen : (1 <= len)%nat) (Hu : kann_unroll a len = Some b) :
  kann_size_var b = kann_size_var a.
Proof. exact (size_var_unroll a len b Hu). Qed.

Lemma unroll_preserves_size_var_witness :
  (1 <= 3)%nat /\ kann_unroll net_rnn 3 = Some net_rnn3 /\
  kann_size_var net_rnn3 = kann_size_var net_rnn.
Proof.
  split; [lia|]. split; [reflexivity|].
  apply (unroll_preserves_size_var net_rnn net_rnn3 3); [lia|reflexivity].
Defined.

(** C2: with [cal_grad] non-zero, [kann_cost] returns the value of the first
    node flagged [KANN_F_COST] with label [cost_label]; its Gradient store is
    the all-zero store into which the adjoints obtained by seeding the cost
    node with 1 and running the adjoint rules in reverse topological order
    are accumulated; the previous Gradient contents play no role. *)
Theorem kann_cost_gradient (a : kann_t) (lab cal_grad : Z) (mem : ptr -> list R)
    (s : rng) (i : nat)
    (Hi : first_match KANN_F_COST lab (kn_v a) 0 = Some i) (Hg : cal_grad <> 0%Z) :
  (i < kann_n a)%nat /\
  node_match KANN_F_COST lab (nth i (kn_v a) dummy_node) = true /\
  (forall j, (j < i)%nat -> node_match KANN_F_COST lab (nth j (kn_v a) dummy_node) = false) /\
  exists vals masks s',
    kad_eval a mem s = (vals, masks, s') /\
    let seed := set_nth (map (fun y => repeat 0 (length y)) vals) i [1] in
    nth i seed [] = [1] /\
    kann_cost a lab cal_grad mem s =
      Some (hd 0 (nth i vals []),
            set_g a (collate (kn_v a) (bwd a vals masks (S i) seed)
                       (repeat 0 (length (kn_g a)))),
            s') /\
    (forall g', length g' = length (kn_g a) ->
       kann_cost (set_g a g') lab cal_grad mem s = kann_cost a lab cal_grad mem s).
Proof.
  destruct (first_match_spec _ _ _ _ _ Hi) as [H1 [H2 H3]]. rewrite Nat.sub_0_r in H2.
  split; [unfold kann_n; lia|]. split; [exact H2|]. split.
  { intros j Hj. rewrite <- (Nat.sub_0_r j). apply H3. lia. }
  destruct (kad_eval a mem s) as [[vals masks] s'] eqn:E.
  assert (Hlen : length vals = kann_n a).
  { rewrite <- (kad_eval_length a mem s), E. reflexivity. }
  apply Z.eqb_neq in Hg.
  exists vals, masks, s'. split; [reflexivity|]. cbv zeta. split; [|split].
  - apply nth_set_nth. rewrite length_map. unfold kann_n in *. lia.
  - unfold kann_cost. rewrite Hi, E, Hg. reflexivity.
  - intros g' Hg'. assert (Hs : same_runtime (set_g a g') a) by (repeat split).
    unfold kann_cost. change (kn_v (set_g a g')) with (kn_v a). rewrite Hi.
    rewrite (kad_eval_ext (set_g a g') a) by exact Hs. rewrite E, Hg.
    rewrite (bwd_ext (set_g a g') a) by exact Hs.
    change (kn_g (set_g a g')) with g'. rewrite Hg'. reflexivity.
Qed.

Lemma kann_cost_gradient_witness :
  first_match KANN_F_COST 0 (kn_v net_lin_fed) 0 = Some 3%nat /\ (1 <> 0)%Z /\
  (3 < kann_n net_lin_fed)%nat.
Proof.
  split; [reflexivity|]. split; [discriminate|].
  exact (proj1 (kann_cost_gradient net_lin_fed 0 1 (fun _ => [5; 6; 7]) 0%N 3
                  eq_refl ltac:(discriminate))).
Defined.

(** C3: for [i < n], [kann_RMSprop] sets [r[i] = decay*r[i] + (1-decay)*g[i]^2]
    and then [t[i] -= (eff*g[i]) / sqrt(r[i] + eps)] with the new [r[i]],
    where [eff] is [h[i]] when [h] is given and [h0] otherwise, and the
    constant [eps] is positive. *)
Theorem kann_RMSprop_update (n : nat) (h0 : R) (h : option (nat -> R)) (decay : R)
    (g t r : nat -> R) (i : nat) (Hi : (i < n)%nat) :
  let tr' := kann_RMSprop n h0 h decay g t r in
  let eff := match h with Some hh => hh i | None => h0 end in
  snd tr' i = decay * r i + (1 - decay) * g i ^ 2 /\
  fst tr' i = t i - (eff * g i) / sqrt (snd tr' i + RMS_EPS) /\
  0 < RMS_EPS.
Proof.
  pose proof (rms_loop_at n h0 h decay g t r i Hi) as H. cbv zeta in H |- *.
  destruct H as [E1 E2]. unfold kann_RMSprop.
  split; [rewrite E1; ring|]. split; [exact E2|].
  unfold RMS_EPS. apply Rinv_0_lt_compat. lra.
Qed.

Lemma kann_RMSprop_update_witness :
  (0 < 1)%nat /\
  snd (kann_RMSprop 1 1 None (9 / 10) (fun _ => 1) (fun _ => 0) (fun _ => 0)) 0%nat
  = 9 / 10 * 0 + (1 - 9 / 10) * 1 ^ 2.
Proof.
  split; [lia|].
  exact (proj1 (kann_RMSprop_update 1 1 None (9 / 10) (fun _ => 1) (fun _ => 0) (fun _ => 0)
                  0 ltac:(lia))).
Defined.

Lemma clip_minus_one (g : nat -> R) :
  g 0%nat * g 0%nat = 1 -> snd (kann_grad_clip (-1) 1 g) = upd g 0 (g 0%nat * (-1 / 1)).
Proof.
  intros Hg. unfold kann_grad_clip, l2norm. simpl.
  replace (0 + g 0%nat * g 0%nat) with 1 by lra. rewrite sqrt_1.
  destruct (Rlt_dec (-1) 1) as [_|C]; [reflexivity|lra].
Qed.

(** C4 (counterexample): with the negative threshold [-1], clipping the
    gradient [[1]] gives [[-1]], and clipping again gives back [[1]]: the
    second call modifies the gradient. *)
Lemma grad_clip_negative_threshold_oscillates :
  snd (kann_grad_clip (-1) 1 (fun _ => 1)) 0%nat = -1 /\
  snd (kann_grad_clip (-1) 1 (snd (kann_grad_clip (-1) 1 (fun _ => 1)))) 0%nat = 1.
Proof.
  rewrite (clip_minus_one (fun _ => 1)) by ring.
  rewrite clip_minus_one.
  - unfold upd; simpl. split; field.
  - unfold upd; simpl. field.
Qed.

(** C4 (amended): for a threshold [thres >= 0], [kann_grad_clip] returns the
    pre-clip L2 norm; it rescales every component of [g[0..n-1]] by
    [thres/norm] exactly when the norm exceeds [thres] and leaves [g]
    unmodified otherwise; a second call on the result does not modify it. *)
Theorem kann_grad_clip_spec (thres : R) (n : nat) (g : nat -> R) (Ht : 0 <= thres) :
  let '(s, g1) := kann_grad_clip thres n g in
  s = l2norm n g /\
  (thres < s -> forall j, g1 j = if Nat.ltb j n then g j * (thres / s) else g j) /\
  (s <= thres -> g1 = g) /\
  snd (kann_grad_clip thres n g1) = g1.
Proof.
  unfold kann_grad_clip at 1.
  destruct (Rlt_dec thres (l2norm n g)) as [Hlt|Hge].
  - assert (Hc : 0 <= thres / l2norm n g).
    { apply Rmult_le_pos; [exact Ht|]. left. apply Rinv_0_lt_compat. lra. }
    split; [reflexivity|]. split; [intros _ j; apply scale_loop_at|].
    split; [intros; lra|].
    unfold kann_grad_clip. rewrite l2norm_scale by exact Hc.
    replace (thres / l2norm n g * l2norm n g) with thres by (field; lra).
    destruct (Rlt_dec thres thres) as [C|_]; [lra|reflexivity].
  - split; [reflexivity|]. split; [intros; lra|]. split; [reflexivity|].
    unfold kann_grad_clip. destruct (Rlt_dec thres (l2norm n g)); [contradiction|reflexivity].
Qed.

Lemma kann_grad_clip_spec_witness :
  0 <= 1 /\
  (let '(s, g1) := kann_grad_clip 1 1 (fun _ => 0) in
   s = l2norm 1 (fun _ => 0) /\
   (1 < s -> forall j, g1 j = if Nat.ltb j 1 then 0 * (1 / s) else 0) /\
   (s <= 1 -> g1 = (fun _ => 0)) /\
   snd (kann_grad_clip 1 1 g1) = g1).
Proof.
  split; [exact Rle_0_1|]. exact (kann_grad_clip_spec 1 1 (fun _ => 0) Rle_0_1).
Defined.

(** C5: [kann_new] returns [NULL] exactly when the designated cost node is
    not scalar, and a network for every scalar cost node. *)
Theorem kann_new_scalar_cost (pl : pool) (cost : nat) (rest : list nat)
    (c : node) (d : list R) (Hc : nth_error pl cost = Some (c, d)) :
  (kann_new pl cost rest = None <-> n_shape c <> []) /\
  (n_shape c = [] -> exists a, kann_new pl cost rest = Some a).
Proof.
  unfold kann_new. rewrite Hc.
  destruct (n_shape c) as [|k sh].
  - split.
    + split; [discriminate|]. intros H. exfalso. apply H. reflexivity.
    + intros _. eexists. reflexivity.
  - split.
    + split; [intros _; discriminate|reflexivity].
    + discriminate.
Qed.

Lemma kann_new_scalar_cost_witness :
  nth_error pool_lin 3 = Some (inner OSum [] [2]%nat, []) /\ kann_new pool_lin 3 [] <> None.
Proof.
  split; [reflexivity|]. intros H.
  apply (proj1 (proj1 (kann_new_scalar_cost pool_lin 3 [] _ _ eq_refl)) H). reflexivity.
Defined.

(** C6: [kann_find] returns the index of the only node whose flags are a
    superset of [ext_flag] and whose label is [ext_label], [-1] when no node
    matches and [-2] when several do; [kann_feed_dim] applies the same rule
    and returns the per-example size of the node. *)
Theorem kann_find_feed_dim_spec (a : kann_t) (ext_flag : N) (ext_label : Z) :
  (forall i p, In (i, p) (matched ext_flag ext_label (kn_v a)) <->
     nth_error (kn_v a) i = Some p /\
     (forall b, N.testbit ext_flag b = true -> N.testbit (n_flag p) b = true) /\
     n_label p = ext_label) /\
  kann_find a ext_flag ext_label =
    match matched ext_flag ext_label (kn_v a) with
    | [] => (-1)%Z | [(i, _)] => Z.of_nat i | _ => (-2)%Z
    end /\
  kann_feed_dim a ext_flag ext_label =
    match matched ext_flag ext_label (kn_v a) with
    | [] => (-1)%Z | [(_, p)] => Z.of_nat (node_dim p) | _ => (-2)%Z
    end.
Proof.
  split; [|split].
  - intros i p. rewrite In_matched, node_match_superset. tauto.
  - unfold kann_find, matched. apply find_loop_none.
  - unfold kann_feed_dim, matched. apply feed_dim_loop_none.
Qed.

(** C7: for a network satisfying the data-model invariants, loading the
    saved model gives the same nodes (topology, flags, labels), the same
    Parameter and Constant stores, and, in the same mode with the same
    bound inputs and random state, the same cost. *)
Theorem kann_load_save_roundtrip (a : kann_t) (Hwf : graph_wf a) :
  exists b, kann_load (kann_save a) = Some b /\
    kn_v b = kn_v a /\ kn_x b = kn_x a /\ kn_c b = kn_c a /\
    forall (is_train : Z) (bind : nat -> option ptr) (lab cal_grad : Z)
           (mem : ptr -> list R) (s : rng),
      option_map (fun r => (fst (fst r), snd r))
        (kann_cost (set_bind (kann_switch b is_train) bind) lab cal_grad mem s) =
      option_map (fun r => (fst (fst r), snd r))
        (kann_cost (set_bind (kann_switch a is_train) bind) lab cal_grad mem s).
Proof.
  eexists. split; [apply kann_load_save_eq; exact Hwf|].
  split; [reflexivity|]. split; [reflexivity|]. split; [reflexivity|].
  intros t bnd lab cal mem s. apply kann_cost_ext.
  - repeat split.
  - destruct Hwf as (_ & Hx & Hg & _). simpl. rewrite repeat_length, Hx, Hg. reflexivity.
Qed.

Lemma net_lin_wf : graph_wf net_lin.
Proof. split; [reflexivity|]. split; [reflexivity|]. split; reflexivity. Qed.

Lemma kann_load_save_roundtrip_witness :
  graph_wf net_lin /\
  exists b, kann_load (kann_save net_lin) = Some b /\ kn_v b = kn_v net_lin.
Proof.
  split; [exact net_lin_wf|].
  destruct (kann_load_save_roundtrip net_lin net_lin_wf) as [b [H1 [H2 _]]].
  exists b. split; assumption.
Defined.

(** C8: in eval mode ([kann_switch a 0]) the forward pass neither reads nor
    advances the random state, so two evaluations on the same input give
    the same output; in either mode, a second evaluation with the random
    state held fixed returns the same result as the first. *)
Theorem kann_switch_eval_deterministic (a : kann_t) (lab : Z) (mem : ptr -> list R) :
  (forall s1 s2,
     fst (kad_eval (kann_switch a 0) mem s1) = fst (kad_eval (kann_switch a 0) mem s2) /\
     snd (kad_eval (kann_switch a 0) mem s1) = s1) /\
  (forall s s2,
     match kann_cost (kann_switch a 0) lab 0 mem s with
     | Some (c1, a1, s1) => kann_cost a1 lab 0 mem s1 = Some (c1, a1, s1) /\
                            cost_of (kann_cost a1 lab 0 mem s2) = Some c1
     | None => True
     end) /\
  (forall is_train s,
     match kann_cost (kann_switch a is_train) lab 0 mem s with
     | Some (c1, a1, s1) => kann_cost a1 lab 0 mem s = Some (c1, a1, s1)
     | None => True
     end).
Proof.
  assert (Ht : kn_train (kann_switch a 0) = false) by reflexivity.
  destruct (fwd_eval_mode (kann_switch a 0) mem (kn_v (kann_switch a 0)) Ht 0 [] [])
    as [vals [masks Hf]].
  assert (He : forall s, kad_eval (kann_switch a 0) mem s = (vals, masks, s)) by exact Hf.
  split; [|split].
  - intros s1 s2. rewrite !He. split; reflexivity.
  - assert (Hc : forall s, kann_cost (kann_switch a 0) lab 0 mem s =
              match first_match KANN_F_COST lab (kn_v (kann_switch a 0)) 0 with
              | Some i => Some (hd 0 (nth i vals []), kann_switch a 0, s)
              | None => None
              end).
    { intros s. unfold kann_cost. rewrite He. reflexivity. }
    intros s s2. rewrite Hc.
    destruct (first_match KANN_F_COST lab (kn_v (kann_switch a 0)) 0) as [i|] eqn:Ef;
      [|exact I].
    cbv beta iota. rewrite !Hc. split; reflexivity.
  - intros t s. pose proof (kann_cost_nograd_net (kann_switch a t) lab mem s) as Hn.
    destruct (kann_cost (kann_switch a t) lab 0 mem s) as [[[c1 a1] s1]|] eqn:E; [|exact I].
    subst a1. exact E.
Qed.

(** C9: [kann_cost] with [cal_grad = 0] leaves the Gradient store (and the
    whole network) unchanged. *)
Theorem kann_cost_nograd_keeps_gradient (a : kann_t) (lab : Z) (mem : ptr -> list R) (s : rng) :
  match kann_cost a lab 0 mem s with
  | Some (_, a', _) => kn_g a' = kn_g a /\ a' = a
  | None => True
  end.
Proof.
  pose proof (kann_cost_nograd_net a lab mem s) as H.
  destruct (kann_cost a lab 0 mem s) as [[[c a'] s']|]; [|exact I].
  subst. split; reflexivity.
Qed.

(** C10: [kann_feed_bind] returns the number (never negative, 0 when none
    matches) of feed nodes matching [ext_flag] and [ext_label]; the [k]-th
    of them in node order is bound to [x[k]]; other bindings and the nodes
    are unchanged. *)
Theorem kann_feed_bind_spec (a : kann_t) (ext_flag : N) (ext_label : Z) (x : list ptr) :
  let fm := feeds ext_flag ext_label (kn_v a) in
  let '(cnt, a') := kann_feed_bind a ext_flag ext_label x in
  cnt = Z.of_nat (length fm) /\ (0 <= cnt)%Z /\
  (forall j, In j fm <-> exists p, nth_error (kn_v a) j = Some p /\
                           is_feed p = true /\ node_match ext_flag ext_label p = true) /\
  StronglySorted lt fm /\
  (forall k j, nth_error fm k = Some j -> kn_bind a' j = nth_error x k) /\
  (forall j, ~ In j fm -> kn_bind a' j = kn_bind a j) /\
  kn_v a' = kn_v a.
Proof.
  cbv zeta. unfold kann_feed_bind.
  pose proof (bind_loop_spec ext_flag ext_label x (kn_v a) 0 0 (kn_bind a)) as H.
  destruct (bind_loop ext_flag ext_label (kn_v a) 0 0 x (kn_bind a)) as [k b].
  destruct H as [H1 [H2 H3]]. simpl in H1.
  split; [rewrite H1; reflexivity|]. split; [lia|]. split; [apply In_feeds|].
  split; [apply feeds_from_sorted|]. split; [|split; [exact H3|reflexivity]].
  intros m j Hm. apply H2. exact Hm.
Qed.

End Claims.

(** ** Further properties of the engine *)

Module ExtraFacts.
Import Optimizer Kann OptimizerFacts KannFacts.
Local Open Scope R_scope.

Lemma size_const_app l1 l2 : size_const (l1 ++ l2) = (size_const l1 + size_const l2)%nat.
Proof. induction l1 as [|p l1 IH]; simpl; [reflexivity|]. rewrite IH. lia. Qed.

Lemma alloc_app l1 l2 ox oc :
  alloc (l1 ++ l2) ox oc =
  alloc l1 ox oc ++ alloc l2 (ox + size_var l1) (oc + size_const l1).
Proof.
  revert ox oc; induction l1 as [|p l1 IH]; intros ox oc; simpl.
  - rewrite !Nat.add_0_r. reflexivity.
  - rewrite IH. destruct (is_var p), (is_const p); rewrite ?Nat.add_assoc, ?Nat.add_0_l, ?Nat.add_0_r; reflexivity.
Qed.


Lemma filter_shared_indexed k v :
  map snd (filter (fun ip => is_shared (snd ip)) (combine (seq k (length v)) v)) =
  filter is_shared v.
Proof.
  revert k; induction v as [|p v IH]; intros k; simpl; [reflexivity|].
  destruct (is_shared p); simpl; rewrite IH; reflexivity.
Qed.

Lemma alloc_filter_shared v ox oc :
  alloc (filter is_shared v) ox oc = filter is_shared (alloc v ox oc).
Proof.
  revert ox oc; induction v as [|[o sh fl lb pre st] v IH]; intros ox oc; [reflexivity|].
  destruct o; simpl; rewrite ?IH; reflexivity.
Qed.

Lemma alloc_scratch l ox oc :
  Forall (fun p => is_shared p = false /\ n_store p = SScratch) l -> alloc l ox oc = l.
Proof.
  intros H. revert ox oc; induction H as [|[o sh fl lb pre st] l [Hs Hst] _ IH]; intros ox oc;
    [reflexivity|].
  simpl in Hst; subst st. destruct o; try discriminate; simpl; rewrite IH; reflexivity.
Qed.

Lemma replica_scratch v t ip :
  is_shared (snd ip) = false ->
  is_shared (replica v t ip) = false /\ n_store (replica v t ip) = SScratch.
Proof.
  destruct ip as [i p]; simpl. unfold is_shared, replica, is_var, is_const; simpl.
  destruct (n_op p); simpl; try discriminate; try (split; reflexivity).
  destruct t; split; reflexivity.
Qed.


Lemma replicas_scratch v ts :
  Forall (fun p => is_shared p = false /\ n_store p = SScratch)
    (flat_map (fun t => map (replica v t) (variant_part v)) ts).
Proof.
  apply Forall_forall. intros p Hp.
  apply in_flat_map in Hp as [t [_ Hp]]. apply in_map_iff in Hp as [ip [<- Hip]].
  apply replica_scratch. unfold variant_part in Hip. apply filter_In in Hip as [_ H].
  apply negb_true_iff in H. exact H.
Qed.

Lemma size_const_shared v :
  size_const (filter is_shared v) = size_const v.
Proof.
  induction v as [|[o sh fl lb pre st] v IH]; [reflexivity|].
  destruct o; simpl; rewrite IH; reflexivity.
Qed.

Lemma size_const_scratch l :
  Forall (fun p => is_shared p = false /\ n_store p = SScratch) l -> size_const l = 0%nat.
Proof.
  induction 1 as [|p l [Hs _] _ IH]; simpl; [reflexivity|].
  unfold is_shared in Hs. apply orb_false_iff in Hs as [_ Hc]. rewrite Hc, IH. reflexivity.
Qed.




Lemma length_feeds_from f l v k :
  length (feeds_from f l v k) = length (filter (feed_sel f l) v).
Proof.
  unfold feeds_from. rewrite length_map. revert k; induction v as [|p v IH]; intros k;
    simpl; [reflexivity|].
  unfold feed_sel in *. destruct (is_feed p && node_match f l p); simpl; rewrite IH; reflexivity.
Qed.

Lemma feed_sel_replica f l v t ip : feed_sel f l (replica v t ip) = feed_sel f l (snd ip).
Proof.
  destruct ip as [i p]. unfold feed_sel, replica, is_feed, node_match; simpl.
  destruct (n_op p); try reflexivity. destruct t; reflexivity.
Qed.

Lemma feed_sel_shared f l p : is_shared p = true -> feed_sel f l p = false.
Proof. unfold feed_sel, is_shared, is_var, is_const, is_feed. destruct (n_op p); easy. Qed.

Lemma length_filter_replicas f l v t (ips : list (nat * node)) :
  length (filter (feed_sel f l) (map (replica v t) ips)) =
  length (filter (fun ip => feed_sel f l (snd ip)) ips).
Proof.
  induction ips as [|ip ips IH]; simpl; [reflexivity|].
  rewrite feed_sel_replica. destruct (feed_sel f l (snd ip)); simpl; rewrite IH; reflexivity.
Qed.

Lemma length_filter_variant f l v k :
  length (filter (fun ip => feed_sel f l (snd ip))
            (filter (fun ip => negb (is_shared (snd ip))) (combine (seq k (length v)) v))) =
  length (filter (feed_sel f l) v).
Proof.
  revert k; induction v as [|p v IH]; intros k; simpl; [reflexivity|].
  destruct (is_shared p) eqn:Es; simpl.
  - rewrite (feed_sel_shared f l p Es). apply IH.
  - destruct (feed_sel f l p); simpl; rewrite IH; reflexivity.
Qed.

Lemma length_filter_app {A} (P : A -> bool) l1 l2 :
  length (filter P (l1 ++ l2)) = (length (filter P l1) + length (filter P l2))%nat.
Proof. rewrite filter_app, length_app. reflexivity. Qed.

Lemma kann_feed_bind_count a f l x :
  fst (kann_feed_bind a f l x) = Z.of_nat (length (filter (feed_sel f l) (kn_v a))).
Proof.
  unfold kann_feed_bind. pose proof (bind_loop_spec f l x (kn_v a) 0 0 (kn_bind a)) as H.
  destruct (bind_loop f l (kn_v a) 0 0 x (kn_bind a)) as [k b]. destruct H as [-> _].
  simpl. rewrite length_feeds_from. reflexivity.
Qed.












(** *** The evaluator and the train bit *)

Lemma eval_node_no_switch a b mem vals i p s :
  kn_x a = kn_x b -> kn_c a = kn_c b -> kn_bind a = kn_bind b -> is_switch p = false ->
  eval_node a mem vals i p s = eval_node b mem vals i p s.
Proof.
  intros Hx Hc Hb Hp. unfold eval_node. rewrite Hx, Hc, Hb.
  unfold is_switch in Hp. destruct (n_op p); try reflexivity. discriminate.
Qed.

Lemma fwd_no_switch a b mem v i vals masks s :
  kn_x a = kn_x b -> kn_c a = kn_c b -> kn_bind a = kn_bind b ->
  existsb is_switch v = false ->
  fwd a mem v i vals masks s = fwd b mem v i vals masks s.
Proof.
  intros Hx Hc Hb. revert i vals masks s; induction v as [|p v IH]; intros i vals masks s Hv;
    simpl; [reflexivity|].
  simpl in Hv. apply orb_false_iff in Hv as [Hp Hv].
  rewrite (eval_node_no_switch a b) by assumption.
  destruct (eval_node b mem vals i p s) as [[y m] s']. apply IH. exact Hv.
Qed.

Lemma nth_no_switch v i :
  existsb is_switch v = false -> is_switch (nth i v dummy_node) = false.
Proof.
  intros Hv. destruct (Nat.lt_ge_cases i (length v)) as [Hi|Hi].
  - apply not_true_iff_false. intros H. apply not_true_iff_false in Hv. apply Hv.
    apply existsb_exists. exists (nth i v dummy_node). split; [apply nth_In; exact Hi|exact H].
  - rewrite nth_overflow by exact Hi. reflexivity.
Qed.

Lemma bwd_no_switch a b vals masks k adj :
  kn_v a = kn_v b -> existsb is_switch (kn_v a) = false ->
  bwd a vals masks k adj = bwd b vals masks k adj.
Proof.
  intros Hv Hs. revert adj; induction k as [|k IH]; intros adj; simpl; [reflexivity|].
  replace (adj_rule a vals masks k (nth k adj []) adj)
    with (adj_rule b vals masks k (nth k adj []) adj); [apply IH|].
  pose proof (nth_no_switch _ k Hs) as Hp. unfold adj_rule. rewrite <- Hv.
  unfold is_switch in Hp. destruct (n_op (nth k (kn_v a) dummy_node)); try reflexivity.
  discriminate.
Qed.

(** *** The forward pass reads feed nodes from their bound buffers *)

Lemma fwd_prefix a mem v i vals masks s j :
  (j < length vals)%nat -> nth j (fst (fst (fwd a mem v i vals masks s))) [] = nth j vals [].
Proof.
  revert i vals masks s; induction v as [|p v IH]; intros i vals masks s Hj; simpl;
    [reflexivity|].
  destruct (eval_node a mem vals i p s) as [[y m] s'].
  rewrite IH by (rewrite length_app; lia). apply app_nth1. exact Hj.
Qed.

Lemma fwd_feed a mem v i vals masks s j p :
  length vals = i -> (i <= j)%nat -> nth_error v (j - i) = Some p -> is_feed p = true ->
  nth j (fst (fst (fwd a mem v i vals masks s))) [] =
  match kn_bind a j with Some q => mem q | None => [] end.
Proof.
  revert i vals masks s; induction v as [|p' v IH]; intros i vals masks s Hl Hij Hp Hf.
  - destruct (j - i)%nat; discriminate.
  - simpl. destruct (Nat.eq_dec j i) as [->|Hne].
    + rewrite Nat.sub_diag in Hp. injection Hp as ->.
      unfold eval_node at 1. unfold is_feed in Hf. destruct (n_op p); try discriminate.
      rewrite fwd_prefix by (rewrite length_app; simpl; lia).
      rewrite app_nth2 by lia. rewrite Hl, Nat.sub_diag. reflexivity.
    + destruct (eval_node a mem vals i p' s) as [[y m] s'].
      apply IH; [rewrite length_app; simpl; lia|lia| |exact Hf].
      replace (j - i)%nat with (S (j - S i)) in Hp by lia. exact Hp.
Qed.

(** *** Layout of the Gradient store *)

Lemma length_add_at off d g : length (add_at off d g) = length g.
Proof.
  revert off d; induction g as [|y g IH]; intros off d; simpl; [reflexivity|].
  destruct off; [destruct d|]; simpl; rewrite ?IH; reflexivity.
Qed.

Lemma length_collate v adj g : length (collate v adj g) = length g.
Proof.
  revert adj g; induction v as [|p v IH]; intros adj g; simpl; [destruct adj; reflexivity|].
  destruct adj as [|d adj]; [reflexivity|]. rewrite IH.
  destruct (n_store p); try reflexivity. destruct (is_var p); [apply length_add_at|reflexivity].
Qed.

(** *** [kann_feed_dim] through [kann_find] *)

Lemma feed_dim_via_find a f l :
  kann_feed_dim a f l =
  (if (kann_find a f l <? 0)%Z then kann_find a f l
   else Z.of_nat (node_dim (nth (Z.to_nat (kann_find a f l)) (kn_v a) dummy_node))).
Proof.
  unfold kann_feed_dim, kann_find.
  rewrite (find_loop_none f l (kn_v a) 0), (feed_dim_loop_none f l (kn_v a) 0).
  fold (matched f l (kn_v a)).
  destruct (matched f l (kn_v a)) as [|[j p] [|ip m]] eqn:E; try reflexivity.
  assert (Hin : In (j, p) (matched f l (kn_v a))) by (rewrite E; left; reflexivity).
  apply In_matched in Hin as [Hj _].
  replace (Z.of_nat j <? 0)%Z with false by (symmetry; apply Z.ltb_ge; lia).
  rewrite Nat2Z.id, (nth_error_nth _ _ _ Hj). reflexivity.
Qed.

(** *** Reachability marks of the builder *)

Lemma set_nth_true_mono (m : list bool) i j :
  nth j m false = true -> nth j (set_nth m i true) false = true.
Proof.
  revert i j; induction m as [|b m IH]; intros i j H; [destruct j; discriminate|].
  destruct i as [|i], j as [|j]; simpl in *; auto.
Qed.

Lemma mark_all_mono l m j : nth j m false = true -> nth j (mark_all m l) false = true.
Proof.
  revert m; induction l as [|i l IH]; intros m H; simpl; [exact H|].
  apply IH. apply set_nth_true_mono. exact H.
Qed.

Lemma mark_all_marks l m j :
  In j l -> (j < length m)%nat -> nth j (mark_all m l) false = true.
Proof.
  revert m; induction l as [|i l IH]; intros m Hin Hj; [destruct Hin|].
  destruct Hin as [->|Hin]; simpl.
  - apply mark_all_mono. apply nth_set_nth. exact Hj.
  - apply IH; [exact Hin|]. rewrite length_set_nth. exact Hj.
Qed.

Lemma mark_down_mono pl k m j :
  nth j m false = true -> nth j (mark_down pl k m) false = true.
Proof.
  revert m; induction k as [|k IH]; intros m H; simpl; [exact H|].
  apply IH. destruct (nth k m false); [apply mark_all_mono|]; exact H.
Qed.

Lemma kept_In {A} (m : list bool) (l : list A) i x :
  nth_error l i = Some x -> nth i m false = true -> In x (kept m l).
Proof.
  revert m i; induction l as [|y l IH]; intros m i Hx Hm; [destruct i; discriminate|].
  destruct m as [|b m]; [destruct i; discriminate|].
  destruct i as [|i]; simpl in *.
  - injection Hx as <-. rewrite Hm. left. reflexivity.
  - destruct b; [right|]; apply (IH m i Hx Hm).
Qed.

Lemma nth_error_combine_seq k (v : list (node * list R)) i x :
  nth_error v i = Some x -> nth_error (combine (seq k (length v)) v) i = Some (k + i, x)%nat.
Proof.
  revert k i; induction v as [|y v IH]; intros k i H; [destruct i; discriminate|].
  destruct i as [|i]; simpl in *.
  - injection H as <-. rewrite Nat.add_0_r. reflexivity.
  - rewrite (IH (S k) i H). f_equal. f_equal. lia.
Qed.

Lemma strip_alloc v ox oc : map strip (alloc v ox oc) = map strip v.
Proof.
  revert ox oc; induction v as [|p v IH]; intros ox oc; simpl; [reflexivity|].
  rewrite IH. reflexivity.
Qed.

Lemma first_match_None f l v k p :
  first_match f l v k = None -> In p v -> node_match f l p = false.
Proof.
  revert k; induction v as [|q v IH]; intros k H Hin; [destruct Hin|]. simpl in H.
  destruct (node_match f l q) eqn:E; [discriminate|].
  destruct Hin as [<-|Hin]; [exact E|]. exact (IH (S k) H Hin).
Qed.

Lemma node_match_cost_flag fl lb :
  node_match KANN_F_COST lb
    (mk_node OZero [] (N.lor fl KANN_F_COST) lb [] SScratch) = true.
Proof.
  unfold node_match; simpl. rewrite Z.eqb_refl, andb_true_r. apply N.eqb_eq.
  apply N.bits_inj. intros b. rewrite N.land_spec, N.lor_spec.
  destruct (N.testbit KANN_F_COST b); [rewrite orb_true_r|rewrite andb_false_r]; reflexivity.
Qed.

End ExtraFacts.

(** ** Verified properties beyond the specification claims *)

Module Extras.
Import Optimizer Kann Examples OptimizerFacts KannFacts ExtraFacts.
Local Open Scope R_scope.


(** X3: unrolling a network that satisfies the data-model invariants gives a
    network that satisfies them, with the very same variable, gradient and
    constant stores, and with every trainable or constant node (with its
    storage offset) unchanged. *)
Theorem kann_unroll_wf (a b : kann_t) (len : nat) :
  graph_wf a -> kann_unroll a len = Some b ->
  graph_wf b /\ kn_x b = kn_x a /\ kn_g b = kn_g a /\ kn_c b = kn_c a /\
  (forall p, In p (kn_v a) -> is_shared p = true -> In p (kn_v b)).
Proof.
  intros Hwf Hu. pose proof (size_var_unroll a len b Hu) as Hsv.
  revert Hu. unfold kann_unroll. destruct (existsb is_prev (kn_v a)); [|discriminate].
  intros Hu; injection Hu as <-.
  unfold shared_part, indexed. rewrite filter_shared_indexed.
  destruct Hwf as (Ha & Hx & Hg & Hc).
  unfold kann_size_var in Hsv; simpl in Hsv.
  unfold shared_part, indexed in Hsv. rewrite filter_shared_indexed in Hsv.
  pose proof (replicas_scratch (kn_v a) (seq 0 len)) as Hr.
  split; [|split; [reflexivity|split; [reflexivity|split; [reflexivity|]]]].
  - unfold graph_wf; simpl. split; [|split; [|split]].
    + rewrite alloc_app, alloc_filter_shared, Ha. rewrite (alloc_scratch _ _ _ Hr). reflexivity.
    + rewrite Hsv. exact Hx.
    + rewrite Hsv. exact Hg.
    + rewrite size_const_app, size_const_shared, (size_const_scratch _ Hr).
      rewrite Nat.add_0_r. exact Hc.
  - intros p Hin Hs. simpl. apply in_or_app. left. apply filter_In. auto.
Qed.

(** X4: an unrolled network has [len] times as many matching feed nodes as
    the network it was unrolled from: [kann_feed_bind] on it reports
    [len] times the count reported on the base network. *)
Theorem kann_unroll_feed_bind (a b : kann_t) (len : nat) (f : N) (l : Z) (x y : list ptr) :
  kann_unroll a len = Some b ->
  fst (kann_feed_bind b f l y) = (Z.of_nat len * fst (kann_feed_bind a f l x))%Z.
Proof.
  unfold kann_unroll. destruct (existsb is_prev (kn_v a)); [|discriminate].
  intros H; injection H as <-. rewrite !kann_feed_bind_count; simpl.
  rewrite length_filter_app. unfold shared_part, indexed. rewrite filter_shared_indexed.
  replace (length (filter (feed_sel f l) (filter is_shared (kn_v a)))) with 0%nat.
  2:{ induction (kn_v a) as [|p v IH]; simpl; [reflexivity|].
      destruct (is_shared p) eqn:E; simpl; [rewrite feed_sel_shared by exact E|]; exact IH. }
  simpl. rewrite <- Nat2Z.inj_mul. f_equal.
  transitivity (length (seq 0 len) * length (filter (feed_sel f l) (kn_v a)))%nat;
    [|rewrite length_seq; reflexivity].
  induction (seq 0 len) as [|t ts IH]; simpl; [reflexivity|].
  rewrite length_filter_app, IH, length_filter_replicas. unfold variant_part, indexed.
  rewrite length_filter_variant. reflexivity.
Qed.




(** X9: on a network without switch (dropout) nodes, [kann_switch] has no
    effect on the forward pass, nor on the cost, gradients and random state
    computed by [kann_cost]. *)
Theorem kann_switch_no_switch_node (a : kann_t) (is_train : Z) (lab cal : Z)
    (mem : ptr -> list R) (s : rng) :
  existsb is_switch (kn_v a) = false ->
  kad_eval (kann_switch a is_train) mem s = kad_eval a mem s /\
  option_map (fun r => (fst (fst r), kn_g (snd (fst r)), snd r))
    (kann_cost (kann_switch a is_train) lab cal mem s) =
  option_map (fun r => (fst (fst r), kn_g (snd (fst r)), snd r)) (kann_cost a lab cal mem s).
Proof.
  intros Hs.
  assert (He : kad_eval (kann_switch a is_train) mem s = kad_eval a mem s).
  { unfold kad_eval. apply fwd_no_switch; try reflexivity. exact Hs. }
  split; [exact He|].
  unfold kann_cost. rewrite He.
  change (kn_v (kann_switch a is_train)) with (kn_v a).
  destruct (first_match KANN_F_COST lab (kn_v a) 0) as [i|]; [|reflexivity].
  destruct (kad_eval a mem s) as [[vals masks] s'].
  destruct (Z.eqb cal 0); [reflexivity|].
  rewrite (bwd_no_switch (kann_switch a is_train) a) by (try reflexivity; exact Hs).
  reflexivity.
Qed.

(** X10: after [kann_feed_bind], the forward pass reads the value of the
    [k]-th matching feed node from the buffer [x[k]], as it is in memory at
    evaluation time (no copy is taken at bind time). *)
Theorem kann_feed_bind_eval (a : kann_t) (f : N) (l : Z) (x : list ptr)
    (mem : ptr -> list R) (s : rng) (k j q : nat) :
  nth_error (feeds f l (kn_v a)) k = Some j -> nth_error x k = Some q ->
  nth j (fst (fst (kad_eval (snd (kann_feed_bind a f l x)) mem s))) [] = mem q.
Proof.
  intros Hk Hq. pose proof (nth_error_In _ _ Hk) as Hin.
  apply In_feeds in Hin as [p [Hp [Hf _]]].
  unfold kann_feed_bind. pose proof (bind_loop_spec f l x (kn_v a) 0 0 (kn_bind a)) as H.
  destruct (bind_loop f l (kn_v a) 0 0 x (kn_bind a)) as [k' b]. destruct H as [_ [H _]].
  simpl. unfold kad_eval; simpl.
  rewrite (fwd_feed _ mem (kn_v a) 0 [] [] s j p); [|reflexivity|lia|rewrite Nat.sub_0_r; exact Hp|exact Hf].
  change (kn_bind (set_bind a b) j) with (b j). rewrite (H k j Hk). simpl. rewrite Hq. reflexivity.
Qed.

(** X11: [kann_cost] changes nothing but the Gradient store, and never
    changes its length: nodes, variables, constants, mode and bindings are
    left as they are. *)
Theorem kann_cost_frame (a : kann_t) (lab cal : Z) (mem : ptr -> list R) (s : rng) :
  match kann_cost a lab cal mem s with
  | Some (_, a', _) => same_runtime a' a /\ length (kn_g a') = length (kn_g a)
  | None => True
  end.
Proof.
  unfold kann_cost. destruct (first_match KANN_F_COST lab (kn_v a) 0) as [i|]; [|exact I].
  destruct (kad_eval a mem s) as [[vals masks] s'].
  destruct (Z.eqb cal 0).
  - repeat split.
  - unfold same_runtime; simpl. rewrite length_collate, repeat_length. repeat split.
Qed.

(** X1: the macros [kann_dim_in] and [kann_dim_out] give [kann_find]'s
    [-1] or [-2] when the input (resp. truth) node of label 0 is missing or
    ambiguous, and otherwise the per-example size of the node whose index
    [kann_find] returns. *)
Theorem kann_dim_in_out (a : kann_t) :
  (let k := kann_find a KANN_F_IN 0 in
   kann_dim_in a =
   if (k <? 0)%Z then k else Z.of_nat (node_dim (nth (Z.to_nat k) (kn_v a) dummy_node))) /\
  (let k := kann_find a KANN_F_TRUTH 0 in
   kann_dim_out a =
   if (k <? 0)%Z then k else Z.of_nat (node_dim (nth (Z.to_nat k) (kn_v a) dummy_node))).
Proof. split; apply feed_dim_via_find. Qed.

(** X12: [kann_RMSprop] leaves [t[j]] and [r[j]] unchanged for [j >= n]. *)
Theorem kann_RMSprop_frame (n : nat) (h0 : R) (h : option (nat -> R)) (decay : R)
    (g t r : nat -> R) (j : nat) :
  (n <= j)%nat ->
  fst (kann_RMSprop n h0 h decay g t r) j = t j /\
  snd (kann_RMSprop n h0 h decay g t r) j = r j.
Proof. intros Hj. apply (rms_loop_frame n h0 h decay g (t, r) j Hj). Qed.

(** X13: with [0 <= decay <= 1] and [r[i] >= 0], the updated accumulator
    [r[i]] is non-negative, so the square root in the update of [t[i]] is
    taken of a positive number. *)
Theorem kann_RMSprop_accumulator (n : nat) (h0 : R) (h : option (nat -> R)) (decay : R)
    (g t r : nat -> R) (i : nat) :
  0 <= decay <= 1 -> 0 <= r i -> (i < n)%nat ->
  0 <= snd (kann_RMSprop n h0 h decay g t r) i /\
  0 < snd (kann_RMSprop n h0 h decay g t r) i + RMS_EPS.
Proof.
  intros Hd Hr Hi. destruct (rms_loop_at n h0 h decay g t r i Hi) as [E _].
  unfold kann_RMSprop. cbv zeta in E. rewrite E.
  assert (H : 0 <= decay * r i + (1 - decay) * g i * g i).
  { pose proof (Rle_0_sqr (g i)) as Hg. unfold Rsqr in Hg.
    assert (0 <= decay * r i) by (apply Rmult_le_pos; lra).
    assert (0 <= (1 - decay) * (g i * g i)) by (apply Rmult_le_pos; lra). nra. }
  split; [exact H|]. assert (0 < RMS_EPS) by (unfold RMS_EPS; apply Rinv_0_lt_compat; lra).
  lra.
Qed.

(** X14: for [thres >= 0], [kann_grad_clip] returns a non-negative norm and
    the L2 norm of the clipped gradient is [min(norm, thres)]. *)
Theorem kann_grad_clip_norm (thres : R) (n : nat) (g : nat -> R) :
  0 <= thres ->
  0 <= fst (kann_grad_clip thres n g) /\
  l2norm n (snd (kann_grad_clip thres n g)) = Rmin (fst (kann_grad_clip thres n g)) thres.
Proof.
  intros Ht. pose proof (l2norm_nonneg n g) as Hn. unfold kann_grad_clip.
  destruct (Rlt_dec thres (l2norm n g)) as [Hlt|Hge]; simpl; split; try exact Hn.
  - rewrite l2norm_scale.
    + rewrite Rmin_right by lra. field. lra.
    + apply Rmult_le_pos; [exact Ht|]. left. apply Rinv_0_lt_compat. lra.
  - rewrite Rmin_left by lra. reflexivity.
Qed.

(** X6: a network built by [kann_new] contains the cost node and each extra
    root node (same operator, shape and label), and [kann_cost] with the cost
    node's label always finds a cost node in it. *)
Theorem kann_new_roots (pl : pool) (cost : nat) (rest : list nat) (a : kann_t) :
  kann_new pl cost rest = Some a ->
  (forall j q e, In j (cost :: rest) -> nth_error pl j = Some (q, e) ->
     exists p, In p (kn_v a) /\ n_op p = n_op q /\ n_shape p = n_shape q /\
               n_label p = n_label q) /\
  (forall c d cal mem s, nth_error pl cost = Some (c, d) ->
     kann_cost a (n_label c) cal mem s <> None).
Proof.
  intros Hnew.
  assert (Hkept : forall j q e, In j (cost :: rest) -> nth_error pl j = Some (q, e) ->
    exists p, In p (kn_v a) /\ strip p = strip (renumber
      (mark_down pl (length pl) (mark_all (repeat false (length pl)) (cost :: rest)))
      (flag_cost cost j q))).
  { intros j q e Hj Hq. revert Hnew. unfold kann_new.
    destruct (nth_error pl cost) as [[c d]|]; [|discriminate].
    destruct (n_shape c); [|discriminate]. intros H; injection H as <-. simpl.
    set (m := mark_down pl (length pl) (mark_all (repeat false (length pl)) (cost :: rest))).
    assert (Hm : nth j m false = true).
    { apply mark_down_mono, mark_all_marks; [exact Hj|].
      rewrite repeat_length. apply nth_error_Some. rewrite Hq. discriminate. }
    pose proof (kept_In m _ j _ (nth_error_combine_seq 0 pl j _ Hq) Hm) as Hin.
    apply (in_map (fun ip => renumber m (flag_cost cost (fst ip) (fst (snd ip))))) in Hin.
    apply (in_map strip) in Hin. rewrite <- (strip_alloc _ 0 0) in Hin.
    apply in_map_iff in Hin as [p [Hp Hin]]. exists p. split; [exact Hin|]. exact Hp. }
  split.
  - intros j q e Hj Hq. destruct (Hkept j q e Hj Hq) as [p [Hin Hp]].
    exists p. split; [exact Hin|].
    unfold strip, renumber, flag_cost in Hp. destruct (Nat.eqb j cost);
      injection Hp; intros; repeat split; assumption.
  - intros c d cal mem s Hc. destruct (Hkept cost c d (or_introl eq_refl) Hc) as [p [Hin Hp]].
    unfold strip, renumber, flag_cost in Hp. rewrite Nat.eqb_refl in Hp.
    injection Hp as Hop Hsh Hfl Hlb Hpre.
    assert (Hmatch : node_match KANN_F_COST (n_label c) p = true).
    { pose proof (node_match_cost_flag (n_flag c) (n_label c)) as E.
      unfold node_match in *; simpl in *. rewrite Hfl, Hlb. exact E. }
    unfold kann_cost. destruct (first_match KANN_F_COST (n_label c) (kn_v a) 0) eqn:E.
    + destruct (kad_eval a mem s) as [[vals masks] s']. destruct (Z.eqb cal 0); discriminate.
    + rewrite (first_match_None _ _ _ _ _ E Hin) in Hmatch. discriminate.
Qed.


Lemma kann_unroll_wf_witness :
  graph_wf net_rnn /\ kann_unroll net_rnn 3 = Some net_rnn3 /\ graph_wf net_rnn3.
Proof.
  assert (H1 : graph_wf net_rnn) by (unfold graph_wf; repeat split; reflexivity).
  assert (H2 : kann_unroll net_rnn 3 = Some net_rnn3) by reflexivity.
  split; [exact H1|]. split; [exact H2|].
  exact (proj1 (kann_unroll_wf net_rnn net_rnn3 3 H1 H2)).
Defined.

Lemma kann_unroll_feed_bind_witness :
  kann_unroll net_rnn 3 = Some net_rnn3 /\
  fst (kann_feed_bind net_rnn3 KANN_F_IN 0 [1; 2; 3]%nat) =
  (3 * fst (kann_feed_bind net_rnn KANN_F_IN 0 [0%nat]))%Z.
Proof.
  assert (H : kann_unroll net_rnn 3 = Some net_rnn3) by reflexivity.
  split; [exact H|]. exact (kann_unroll_feed_bind net_rnn net_rnn3 3 KANN_F_IN 0 _ _ H).
Defined.


Lemma kann_new_roots_witness :
  kann_new pool_lin 3 [] = Some net_lin /\
  kann_cost net_lin 0 1 (fun _ => [1; 1; 1]) 0%N <> None.
Proof.
  assert (H : kann_new pool_lin 3 [] = Some net_lin) by reflexivity.
  split; [exact H|].
  exact (proj2 (kann_new_roots pool_lin 3 [] net_lin H) (inner OSum [] [2]%nat) [] 1%Z
           (fun _ => [1; 1; 1]) 0%N eq_refl).
Defined.



Lemma kann_switch_no_switch_node_witness :
  existsb is_switch (kn_v net_lin) = false /\
  kad_eval (kann_switch net_lin 1) (fun _ => [1; 2; 3]) 5%N =
  kad_eval net_lin (fun _ => [1; 2; 3]) 5%N.
Proof.
  assert (H : existsb is_switch (kn_v net_lin) = false) by reflexivity.
  split; [exact H|].
  exact (proj1 (kann_switch_no_switch_node net_lin 1 0 1 (fun _ => [1; 2; 3]) 5%N H)).
Defined.

Lemma kann_feed_bind_eval_witness :
  nth_error (feeds KANN_F_IN 0 (kn_v net_lin)) 0 = Some 0%nat /\
  nth 0 (fst (fst (kad_eval (snd (kann_feed_bind net_lin KANN_F_IN 0 [7%nat]))
                     (fun q => [INR q]) 0%N))) [] = [INR 7].
Proof.
  assert (H : nth_error (feeds KANN_F_IN 0 (kn_v net_lin)) 0 = Some 0%nat) by reflexivity.
  split; [exact H|].
  exact (kann_feed_bind_eval net_lin KANN_F_IN 0 [7%nat] (fun q => [INR q]) 0%N 0 0 7 H eq_refl).
Defined.

Lemma kann_RMSprop_frame_witness :
  (2 <= 5)%nat /\
  fst (kann_RMSprop 2 1 None (9 / 10) (fun _ => 1) (fun _ => 4) (fun _ => 0)) 5%nat = 4.
Proof.
  assert (H : (2 <= 5)%nat) by lia. split; [exact H|].
  exact (proj1 (kann_RMSprop_frame 2 1 None (9 / 10) (fun _ => 1) (fun _ => 4) (fun _ => 0) 5 H)).
Defined.

Lemma kann_RMSprop_accumulator_witness :
  0 <= 9 / 10 <= 1 /\ 0 <= 0 /\ (0 < 2)%nat /\
  0 < snd (kann_RMSprop 2 1 None (9 / 10) (fun _ => 1) (fun _ => 4) (fun _ => 0)) 0%nat + RMS_EPS.
Proof.
  assert (Hd : 0 <= 9 / 10 <= 1) by lra. assert (Hr : 0 <= 0) by lra.
  assert (Hi : (0 < 2)%nat) by lia.
  split; [exact Hd|]. split; [exact Hr|]. split; [exact Hi|].
  exact (proj2 (kann_RMSprop_accumulator 2 1 None (9 / 10) (fun _ => 1) (fun _ => 4)
                  (fun _ => 0) 0 Hd Hr Hi)).
Defined.

Lemma kann_grad_clip_norm_witness :
  0 <= 1 /\ l2norm 1 (snd (kann_grad_clip 1 1 (fun _ => 3))) =
            Rmin (fst (kann_grad_clip 1 1 (fun _ => 3))) 1.
Proof.
  assert (H : 0 <= 1) by lra. split; [exact H|].
  exact (proj2 (kann_grad_clip_norm 1 1 (fun _ => 3) H)).
Defined.

End Extras.
